(** * A fixed-capacity pool allocator and the linked list built on it

    Shallow embedding of [memory_manager.c] and [linked_list.c].

    - A [size_t] and a pointer are 64-bit integers, modelled in [Z]; the
      arithmetic the code performs on them is written with its wrap-around
      ([wrap]).
    - The block-descriptor chain ([struct memory_block] linked through
      [next]) is a [list memory_block] in chain order: the descriptors are
      separately [malloc]ed records that nothing but the chain refers to.
    - The two mutexes serialise the calls; a call is modelled as one atomic
      step on the state, so locking and unlocking leave no trace here.
    - A dereference of [NULL] (or of an address that holds no node) is
      undefined behaviour in C; it is the outcome [Fault]. *)

From Stdlib Require Import ZArith Lia.
From Stdlib.Strings Require Import Byte.
From stdpp Require Import base tactics option list gmap strings pretty.

Local Open Scope Z_scope.

(** Outcome of a call that may dereference a bad pointer or loop. *)
Inductive outcome (A : Type) : Type :=
  | Returns (a : A)
  | Fault
  | Diverges.
Arguments Returns {A} a.
Arguments Fault {A}.
Arguments Diverges {A}.

Definition size_t_modulus : Z := 2 ^ 64.

(** Unsigned 64-bit wrap-around of [size_t] and pointer arithmetic. *)
Definition wrap (z : Z) : Z := z mod size_t_modulus.

Definition NULL : Z := 0.

Module MemoryManager.

(** [struct memory_block]; the [next] field is the tail of the chain. *)
Record memory_block : Type := Block {
  ptr : Z;
  size : Z;
  free : Z
}.

(** [make_block(ptr, size, free, next)]: a new descriptor linked in front
    of [next]. *)
Definition make_block (p sz fr : Z) (next : list memory_block)
  : list memory_block :=
  Block p sz fr :: next.

(** The globals [memory_pool] and [first_block], with the bytes the pool
    holds ([pool_data], indexed by offset from [memory_pool]). *)
Record mm_state : Type := MM {
  memory_pool : Z;
  pool_data : list byte;
  first_block : list memory_block
}.

(** [mem_init(size)]: [fresh] is the address [malloc(size)] returned and
    [garbage] the (indeterminate) bytes found there. *)
Definition mem_init (fresh : Z) (garbage : list byte) (sz : Z) : mm_state :=
  MM fresh garbage (make_block fresh sz 1 []).

(** The test of [no_lock_alloc]: [current->free && current->size >= size]. *)
Definition fits (sz : Z) (b : memory_block) : bool :=
  negb (free b =? 0) && (size b >=? sz).

(** The loop of [no_lock_alloc], from [current] on: the pointer returned
    and the chain from [current] on afterwards. *)
Fixpoint alloc_walk (sz : Z) (current : list memory_block)
  : Z * list memory_block :=
  match current with
  | [] => (NULL, [])
  | b :: next =>
      if fits sz b then
        let new_block :=
          make_block (wrap (ptr b + sz)) (wrap (size b - sz)) 1 next in
        (ptr b, Block (ptr b) sz 0 :: new_block)
      else
        let '(p, next') := alloc_walk sz next in
        (p, b :: next')
  end.

Definition no_lock_alloc (sz : Z) (s : mm_state) : Z * mm_state :=
  let '(p, chain) := alloc_walk sz (first_block s) in
  (p, MM (memory_pool s) (pool_data s) chain).

Definition mem_alloc (sz : Z) (s : mm_state) : Z * mm_state :=
  no_lock_alloc sz s.

(** The loop of [no_lock_free], from [current] on. *)
Fixpoint free_walk (block : Z) (current : list memory_block)
  : list memory_block :=
  match current with
  | [] => []
  | b :: rest =>
      if ptr b =? block then
        match rest with
        | next :: rest' =>
            if free next =? 1
            then Block (ptr b) (wrap (size b + size next)) 1 :: rest'
            else Block (ptr b) (size b) 1 :: rest
        | [] => Block (ptr b) (size b) 1 :: []
        end
      else b :: free_walk block rest
  end.

(** [no_lock_free] and [mem_free] return [void]: the result is [tt]. *)
Definition no_lock_free (block : Z) (s : mm_state) : unit * mm_state :=
  (tt, MM (memory_pool s) (pool_data s) (free_walk block (first_block s))).

Definition mem_free (block : Z) (s : mm_state) : unit * mm_state :=
  no_lock_free block s.

(** The search loop of [mem_resize]: the descriptor [current_block] ends
    on, [None] when it ends on [NULL]. *)
Fixpoint find_block (block : Z) (current : list memory_block)
  : option memory_block :=
  match current with
  | [] => None
  | b :: next => if ptr b =? block then Some b else find_block block next
  end.

(** [memcpy(dst, src, n)] inside the pool. *)
Definition memcpy (dst src n : Z) (s : mm_state) : list byte :=
  let off (a : Z) : nat := Z.to_nat (a - memory_pool s) in
  list_inserts (off dst)
    (take (Z.to_nat n) (drop (off src) (pool_data s))) (pool_data s).

(** [mem_resize].  [current_block->size] is read again after the inner
    allocation; the allocation only rewrites a descriptor that [fits] the
    new size, which [current_block] does not on this path (lemma
    [alloc_walk_keeps_small]), so the value is the one read before. *)
Definition mem_resize (block sz : Z) (s : mm_state)
  : outcome (Z * mm_state) :=
  match find_block block (first_block s) with
  | None => Fault
  | Some current_block =>
      if size current_block >=? sz then Returns (block, s)
      else
        let '(new_ptr, s1) := no_lock_alloc sz s in
        if negb (new_ptr =? NULL) then
          let s2 := MM (memory_pool s1)
                       (memcpy new_ptr block (size current_block) s1)
                       (first_block s1) in
          let '(_, s3) := no_lock_free block s2 in
          Returns (new_ptr, s3)
        else Returns (new_ptr, s1)
  end.

(** [mem_deinit]. *)
Definition mem_deinit (s : mm_state) : unit * mm_state :=
  (tt, MM NULL [] []).

(** ** Traces of calls and the chain invariant *)

(** A call of the public interface that changes the chain. *)
Inductive call : Type :=
  | Alloc (sz : Z)
  | Free (block : Z).

(** The argument is a value of its C type. *)
Definition call_ok (c : call) : Prop :=
  match c with
  | Alloc sz => 0 <= sz < size_t_modulus
  | Free block => 0 <= block < size_t_modulus
  end.

Definition step (s : mm_state) (c : call) : mm_state :=
  match c with
  | Alloc sz => snd (mem_alloc sz s)
  | Free block => snd (mem_free block s)
  end.

Definition run (cs : list call) (s : mm_state) : mm_state :=
  foldl step s cs.

Definition sum_sizes (l : list memory_block) : Z :=
  foldr (fun b acc => size b + acc) 0 l.

(** Byte-contiguity: the chain starts at [start], every descriptor begins
    where its predecessor ends, and the last one ends at [stop]. *)
Fixpoint contiguous (start : Z) (l : list memory_block) (stop : Z) : Prop :=
  match l with
  | [] => start = stop
  | b :: l' =>
      ptr b = start /\ 0 <= size b /\ contiguous (start + size b) l' stop
  end.

(** No descriptor reaches into a later one. *)
Definition non_overlapping (l : list memory_block) : Prop :=
  forall (i j : nat) (a b : memory_block),
    (i < j)%nat -> l !! i = Some a -> l !! j = Some b ->
    ptr a + size a <= ptr b.

(** No two descriptors point to the same address. *)
Definition distinct_addresses (l : list memory_block) : Prop :=
  NoDup (ptr <$> l).

(** Two descriptors share an address only when the earlier one is empty. *)
Definition shared_address_only_after_empty (l : list memory_block) : Prop :=
  forall (i j : nat) (a b : memory_block),
    (i < j)%nat -> l !! i = Some a -> l !! j = Some b ->
    ptr a = ptr b -> size a = 0.

(** An initialised pool of [total] bytes: [malloc] gave a non-null region
    that lies in the address space, and the chain tiles it. *)
Record pool_inv (total : Z) (s : mm_state) : Prop := PoolInv {
  inv_base : 0 < memory_pool s;
  inv_total : 0 <= total;
  inv_end : memory_pool s + total < size_t_modulus;
  inv_chain :
    contiguous (memory_pool s) (first_block s) (memory_pool s + total)
}.

(** The chain invariant as the specification words it. *)
Definition stated_chain_invariant (total : Z) (s : mm_state) : Prop :=
  sum_sizes (first_block s) = total /\
  contiguous (memory_pool s) (first_block s) (memory_pool s + total) /\
  non_overlapping (first_block s) /\
  distinct_addresses (first_block s).

(** The chain invariant the code keeps. *)
Definition chain_invariant (total : Z) (s : mm_state) : Prop :=
  sum_sizes (first_block s) = total /\
  contiguous (memory_pool s) (first_block s) (memory_pool s + total) /\
  non_overlapping (first_block s) /\
  shared_address_only_after_empty (first_block s).

(** A pool of [n] zero bytes, for concrete runs. *)
Definition zeros (n : nat) : list byte := replicate n "000"%byte.

(** A pool holding the bytes 0, 1, 2, ..., for concrete runs. *)
Definition ramp (n : nat) : list byte := omap Byte.of_nat (seq 0 n).

(** The specification's statement about two chain-adjacent allocated
    blocks, freed in the order [x], [y]: afterwards one free descriptor has
    the sum of their sizes, and allocating that size succeeds and returns
    the lower of the two addresses. *)
Definition stated_merge (s : mm_state) (x y : memory_block) : Prop :=
  let s2 := run [Free (ptr x); Free (ptr y)] s in
  (exists m, m ∈ first_block s2 /\ free m <> 0 /\ size m = size x + size y) /\
  fst (mem_alloc (size x + size y) s2) <> NULL /\
  fst (mem_alloc (size x + size y) s2) = Z.min (ptr x) (ptr y).

(** What a caller reads off the pointer [mem_alloc] returns. *)
Definition allocation_exhausted (p : Z) : bool := p =? NULL.

(** The outcomes the specification names for [free]. *)
Inductive free_report : Type :=
  | Freed
  | BlockNotFound.

(** The chain from [a] on after two adjacent blocks [a], [b], followed by
    [post], have been merged: [a] has absorbed [b], and with it the
    descriptor after [b] when that one was free. *)
Definition merged_pair (a b : memory_block) (post : list memory_block)
  : list memory_block :=
  match post with
  | c :: post' =>
      if free c =? 1
      then Block (ptr a) (size a + size b + size c) 1 :: post'
      else Block (ptr a) (size a + size b) 1 :: post
  | [] => [Block (ptr a) (size a + size b) 1]
  end.

(** ** Accounting *)

(** The bytes of the descriptors in use. *)
Definition used_bytes (l : list memory_block) : Z :=
  foldr (fun b acc => (if free b =? 0 then size b else 0) + acc) 0 l.

(** Every flag is one of the two values the code writes. *)
Definition flags_ok (l : list memory_block) : Prop :=
  Forall (fun b => free b = 0 \/ free b = 1) l.

(** The chain from [b] on after [b] has been freed: [b] is free and has
    absorbed its successor when that one was free. *)
Definition freed_block (b : memory_block) (rest : list memory_block)
  : list memory_block :=
  match rest with
  | next :: rest' =>
      if free next =? 1
      then Block (ptr b) (size b + size next) 1 :: rest'
      else Block (ptr b) (size b) 1 :: rest
  | [] => [Block (ptr b) (size b) 1]
  end.

End MemoryManager.

Module LinkedList.

(** Modelled from the spec: [struct Node], declared in [linked_list.h]: a
    16-bit unsigned payload and a reference to the next node (or none);
    the code reads and writes them as [data] and [next]. *)
Record Node : Type := mkNode {
  data : Z;
  next : Z
}.

(** The allocator, the nodes written into the pool (by address) and the
    text printed so far. *)
Record list_state : Type := LS {
  mm : MemoryManager.mm_state;
  heap : gmap Z Node;
  console : list string
}.

Definition M (A : Type) : Type := list_state -> outcome (A * list_state).

#[global] Instance M_ret : MRet M := fun A a st => Returns (a, st).

#[global] Instance M_bind : MBind M := fun A B f m st =>
  match m st with
  | Returns (a, st') => f a st'
  | Fault => Fault
  | Diverges => Diverges
  end.

Definition diverge {A : Type} : M A := fun _ => Diverges.

(** A call into the allocator. *)
Definition call_mem_alloc (sz : Z) : M Z := fun st =>
  let '(p, m) := MemoryManager.mem_alloc sz (mm st) in
  Returns (p, LS m (heap st) (console st)).

(** The fields of [*node] become [n]. *)
Definition store_node (node : Z) (n : Node) : M unit := fun st =>
  if node =? NULL then Fault
  else Returns (tt, LS (mm st) (<[node := n]> (heap st)) (console st)).

(** [node->data = d; node->next = nx;] on a node just obtained. *)
Definition init_node (node d nx : Z) : M unit :=
  store_node node (mkNode d nx).

(** Reading the fields of [*node]. *)
Definition load_node (node : Z) : M Node := fun st =>
  if node =? NULL then Fault
  else match heap st !! node with
       | Some n => Returns (n, st)
       | None => Fault
       end.

(** [node->next = nx;] *)
Definition set_next (node nx : Z) : M unit :=
  n ← load_node node;
  store_node node (mkNode (data n) nx).

Definition printf (text : string) : M unit := fun st =>
  Returns (tt, LS (mm st) (heap st) (console st ++ [text])).

(** A loop over the chain visits each node once unless the chain is
    cyclic, so one more step than there are nodes is all it can use. *)
Definition loop_fuel : M nat := fun st => Returns (S (size (heap st)), st).

(** [list_init(head, size)]: the new value of [*head] is returned. *)
Definition list_init (fresh : Z) (garbage : list byte) (sz : Z) : M Z :=
  fun st =>
    Returns (NULL, LS (MemoryManager.mem_init fresh garbage sz)
                      (heap st) (console st)).

(** [while (current->next != NULL) current = current->next;] *)
Fixpoint last_node (fuel : nat) (current : Z) : M Z :=
  match fuel with
  | O => diverge
  | S fuel' =>
      n ← load_node current;
      if next n =? NULL then mret current else last_node fuel' (next n)
  end.

(** The search loop: [Some current] when the [return current] inside the
    loop is reached, [None] when the loop ends. *)
Fixpoint search_loop (fuel : nat) (current d : Z) : M (option Z) :=
  match fuel with
  | O => diverge
  | S fuel' =>
      if current =? NULL then mret None
      else
        n ← load_node current;
        if data n =? d then mret (Some current)
        else search_loop fuel' (next n) d
  end.

(** [list_search(head, data)]. *)
Definition list_search (head d : Z) : M Z :=
  fuel ← loop_fuel;
  found ← search_loop fuel head d;
  match found with
  | Some current => mret current
  | None => _ ← printf "data not in list"; mret 0
  end.

Section WithNodeSize.

(** [sizeof(Node)]; the type is declared in [linked_list.h]. *)
Variable sizeof_Node : Z.

(** [list_insert(head, data)]: the new value of [*head] is returned. *)
Definition list_insert (head d : Z) : M Z :=
  node ← call_mem_alloc sizeof_Node;
  _ ← init_node node d NULL;
  if head =? NULL then mret node
  else
    fuel ← loop_fuel;
    current ← last_node fuel head;
    _ ← set_next current node;
    mret head.

(** [list_insert] called once for each value of [ds], in order. *)
Fixpoint insert_all (ds : list Z) (head : Z) : M Z :=
  match ds with
  | [] => mret head
  | d :: ds' => head' ← list_insert head d; insert_all ds' head'
  end.

End WithNodeSize.

(** An empty list over a fresh pool of 64 bytes at address 1000. *)
Definition empty_list_64 : list_state :=
  LS (MemoryManager.mem_init 1000 (MemoryManager.zeros 64) 64) ∅ [].

(** The chain from [a] holds exactly the nodes [l], in order, each with
    its address, and ends in [NULL]. *)
Fixpoint list_repr (h : gmap Z Node) (a : Z) (l : list (Z * Node)) : Prop :=
  match l with
  | [] => a = NULL
  | (a', n) :: l' =>
      a = a' /\ a <> NULL /\ h !! a = Some n /\ list_repr h (next n) l'
  end.

(** The first node, head to tail, whose payload is [d]. *)
Definition first_match (d : Z) (l : list (Z * Node)) : option (Z * Node) :=
  List.find (fun an => data (snd an) =? d) l.

(** ** The other operations of the list *)

(** Calls into the allocator. *)
Definition call_mem_free (block : Z) : M unit := fun st =>
  let '(_, m) := MemoryManager.mem_free block (mm st) in
  Returns (tt, LS m (heap st) (console st)).

Definition call_mem_deinit : M unit := fun st =>
  let '(_, m) := MemoryManager.mem_deinit (mm st) in
  Returns (tt, LS m (heap st) (console st)).

(** [printf("%d", d)] for the payload of a node. *)
Definition printf_d (d : Z) : M unit := printf (pretty d).

(** The search loop of [list_delete]; the new value of [*head] is
    returned.  [current->next] is read once: the write to
    [prev_node->next] between the two reads of the source changes it only
    when [prev_node == current], and then writes the value it has. *)
Fixpoint delete_loop (fuel : nat) (head current prev_node d : Z) : M Z :=
  match fuel with
  | O => diverge
  | S fuel' =>
      if current =? NULL then mret head
      else
        n ← load_node current;
        if data n =? d then
          _ ← (if prev_node =? NULL then mret tt
               else set_next prev_node (next n));
          let head' := if current =? head then next n else head in
          _ ← call_mem_free current;
          mret head'
        else delete_loop fuel' head (next n) current d
  end.

(** [list_delete(head, data)]: the new value of [*head] is returned. *)
Definition list_delete (head d : Z) : M Z :=
  fuel ← loop_fuel;
  delete_loop fuel head head NULL d.

(** The loop of [list_display_range]: the value of [start_node] when the
    loop is left, by its condition or by the [break]. *)
Fixpoint display_loop (fuel : nat) (start_node end_node : Z) : M Z :=
  match fuel with
  | O => diverge
  | S fuel' =>
      if start_node =? end_node then mret start_node
      else
        n ← load_node start_node;
        _ ← printf_d (data n);
        if next n =? NULL then mret start_node
        else
          _ ← printf ", ";
          display_loop fuel' (next n) end_node
  end.

(** [list_display_range(head, start_node, end_node)]. *)
Definition list_display_range (head start_node end_node : Z) : M unit :=
  let start_node := if start_node =? NULL then head else start_node in
  _ ← printf "[";
  fuel ← loop_fuel;
  last ← display_loop fuel start_node end_node;
  _ ← (if last =? end_node
       then n ← load_node end_node; printf_d (data n)
       else mret tt);
  printf "]".

(** [list_display(head)]. *)
Definition list_display (head : Z) : M unit :=
  list_display_range head NULL NULL.

(** The wrap-around of a 32-bit [int]. *)
Definition int_wrap (z : Z) : Z := (z + 2 ^ 31) mod 2 ^ 32 - 2 ^ 31.

(** The loop of [list_count_nodes], with the counter [i]. *)
Fixpoint count_loop (fuel : nat) (current i : Z) : M Z :=
  match fuel with
  | O => diverge
  | S fuel' =>
      if current =? NULL then mret i
      else
        n ← load_node current;
        count_loop fuel' (next n) (int_wrap (i + 1))
  end.

(** [list_count_nodes(head)]. *)
Definition list_count_nodes (head : Z) : M Z :=
  fuel ← loop_fuel;
  count_loop fuel head 0.

(** The loop of [list_cleanup]. *)
Fixpoint cleanup_loop (fuel : nat) (current : Z) : M unit :=
  match fuel with
  | O => diverge
  | S fuel' =>
      if current =? NULL then mret tt
      else
        n ← load_node current;
        _ ← call_mem_free current;
        cleanup_loop fuel' (next n)
  end.

(** [list_cleanup(head)]: the new value of [*head] is returned. *)
Definition list_cleanup (head : Z) : M Z :=
  fuel ← loop_fuel;
  _ ← cleanup_loop fuel head;
  _ ← call_mem_deinit;
  mret NULL.

Section WithNewNodes.

Variable sizeof_Node : Z.

(** What the [next] field of a node holds before it is first written. *)
Variable indeterminate : Z.

(** [node->data = d;] *)
Definition store_data (node d : Z) : M unit := fun st =>
  if node =? NULL then Fault
  else
    let nx := match heap st !! node with
              | Some n => next n
              | None => indeterminate
              end in
    Returns (tt, LS (mm st) (<[node := mkNode d nx]> (heap st)) (console st)).

(** [list_insert_after(prev_node, data)]. *)
Definition list_insert_after (prev_node d : Z) : M unit :=
  node ← call_mem_alloc sizeof_Node;
  _ ← store_data node d;
  p ← load_node prev_node;
  _ ← set_next node (next p);
  set_next prev_node node.

(** [while (current->next != next_node) current = current->next;] *)
Fixpoint find_pred (fuel : nat) (current next_node : Z) : M Z :=
  match fuel with
  | O => diverge
  | S fuel' =>
      n ← load_node current;
      if next n =? next_node then mret current
      else find_pred fuel' (next n) next_node
  end.

(** [list_insert_before(head, next_node, data)]: the new value of [*head]
    is returned. *)
Definition list_insert_before (head next_node d : Z) : M Z :=
  node ← call_mem_alloc sizeof_Node;
  _ ← init_node node d next_node;
  if head =? next_node then mret node
  else
    fuel ← loop_fuel;
    current ← find_pred fuel head next_node;
    _ ← set_next current node;
    mret head.

End WithNewNodes.

(** ** Well-formed lists *)

(** The chain from [a] holds the nodes [l], in order, and its last node
    points to [z]. *)
Fixpoint lseg (h : gmap Z Node) (a : Z) (l : list (Z * Node)) (z : Z)
  : Prop :=
  match l with
  | [] => a = z
  | (a', n) :: l' =>
      a = a' /\ a <> NULL /\ h !! a = Some n /\ lseg h (next n) l' z
  end.

(** The payloads of the nodes, head to tail. *)
Definition values (l : list (Z * Node)) : list Z :=
  (fun an => data (snd an)) <$> l.

(** Every node of the list lies in a block of the pool that is in use. *)
Definition nodes_live (st : list_state) (l : list (Z * Node)) : Prop :=
  forall a, a ∈ l.*1 ->
    exists b, b ∈ MemoryManager.first_block (mm st) /\
              MemoryManager.ptr b = a /\ MemoryManager.free b = 0 /\
              0 < MemoryManager.size b.

(** A well-formed list [l] from [head], over an initialised pool of
    [total] bytes. *)
Definition list_inv (total : Z) (st : list_state) (head : Z)
    (l : list (Z * Node)) : Prop :=
  MemoryManager.pool_inv total (mm st) /\
  list_repr (heap st) head l /\
  nodes_live st l.

(** The list without its first node of payload [d]. *)
Fixpoint delete_first (d : Z) (l : list (Z * Node)) : list (Z * Node) :=
  match l with
  | [] => []
  | x :: l' => if data (snd x) =? d then l' else x :: delete_first d l'
  end.

(** What the display loop prints for the payloads [vs] followed by the
    payload [v], one entry for each call of [printf]. *)
Definition display_chunks (vs : list Z) (v : Z) : list string :=
  flat_map (fun x => [pretty x; ", "]) vs ++ [pretty v].

(** The text that a sequence of [printf] calls leaves on the console. *)
Definition printed (chunks : list string) : string :=
  foldr String.append "" chunks.


(** The allocator after [list_delete]: the block of the first node with
    the payload has been passed to [mem_free]. *)
Definition mm_after_delete (d : Z) (l : list (Z * Node))
    (m : MemoryManager.mm_state) : MemoryManager.mm_state :=
  match first_match d l with
  | Some (a, _) => snd (MemoryManager.mem_free a m)
  | None => m
  end.

End LinkedList.

(** * Properties of the allocator *)

Module MemoryManagerFacts.
Import MemoryManager.

Lemma wrap_small (z : Z) : 0 <= z < size_t_modulus -> wrap z = z.
Proof. intros Hz. unfold wrap. apply Z.mod_small. exact Hz. Qed.

(** ** The two walks, by the position of the descriptor they stop at *)

Lemma alloc_walk_none (sz : Z) (l : list memory_block) :
  Forall (fun x => fits sz x = false) l -> alloc_walk sz l = (NULL, l).
Proof.
  induction 1 as [|b l Hb _ IH]; simpl; [reflexivity|].
  rewrite Hb, IH. reflexivity.
Qed.

Lemma alloc_walk_split (sz : Z) (pre : list memory_block) (b : memory_block)
    (post : list memory_block) :
  Forall (fun x => fits sz x = false) pre ->
  fits sz b = true ->
  alloc_walk sz (pre ++ b :: post) =
    (ptr b,
     pre ++ Block (ptr b) sz 0
         :: Block (wrap (ptr b + sz)) (wrap (size b - sz)) 1 :: post).
Proof.
  intros Hpre Hb.
  induction Hpre as [|x pre Hx _ IH]; simpl.
  - rewrite Hb. reflexivity.
  - rewrite Hx, IH. reflexivity.
Qed.

(** Either nothing fits, or the chain splits at the first descriptor that
    does. *)
Lemma first_fit_cases (sz : Z) (l : list memory_block) :
  Forall (fun x => fits sz x = false) l \/
  exists pre b post,
    l = pre ++ b :: post /\
    Forall (fun x => fits sz x = false) pre /\ fits sz b = true.
Proof.
  induction l as [|x l IH].
  - left. constructor.
  - destruct (fits sz x) eqn:Hx.
    + right. exists [], x, l. repeat split; [constructor | exact Hx].
    + destruct IH as [Hall | (pre & b & post & -> & Hpre & Hb)].
      * left. constructor; assumption.
      * right. exists (x :: pre), b, post.
        repeat split; [constructor; assumption | exact Hb].
Qed.

Lemma free_walk_absent (block : Z) (l : list memory_block) :
  Forall (fun x => ptr x <> block) l -> free_walk block l = l.
Proof.
  induction 1 as [|b l Hb _ IH]; simpl; [reflexivity|].
  destruct (Z.eqb_spec (ptr b) block) as [E|_]; [contradiction|].
  rewrite IH. reflexivity.
Qed.

Lemma free_walk_split (block : Z) (pre : list memory_block)
    (b : memory_block) (rest : list memory_block) :
  Forall (fun x => ptr x <> block) pre ->
  ptr b = block ->
  free_walk block (pre ++ b :: rest) =
    pre ++ match rest with
           | next :: rest' =>
               if free next =? 1
               then Block (ptr b) (wrap (size b + size next)) 1 :: rest'
               else Block (ptr b) (size b) 1 :: rest
           | [] => [Block (ptr b) (size b) 1]
           end.
Proof.
  intros Hpre Hb.
  induction Hpre as [|x pre Hx _ IH]; simpl.
  - apply Z.eqb_eq in Hb. rewrite Hb. reflexivity.
  - destruct (Z.eqb_spec (ptr x) block) as [E|_]; [contradiction|].
    rewrite IH. reflexivity.
Qed.

Lemma address_cases (block : Z) (l : list memory_block) :
  Forall (fun x => ptr x <> block) l \/
  exists pre b rest,
    l = pre ++ b :: rest /\
    Forall (fun x => ptr x <> block) pre /\ ptr b = block.
Proof.
  induction l as [|x l IH].
  - left. constructor.
  - destruct (Z.eq_dec (ptr x) block) as [Hx|Hx].
    + right. exists [], x, l. repeat split; [constructor | exact Hx].
    + destruct IH as [Hall | (pre & b & rest & -> & Hpre & Hb)].
      * left. constructor; assumption.
      * right. exists (x :: pre), b, rest.
        repeat split; [constructor; assumption | exact Hb].
Qed.

Lemma find_block_absent (block : Z) (l : list memory_block) :
  Forall (fun x => ptr x <> block) l -> find_block block l = None.
Proof.
  induction 1 as [|b l Hb _ IH]; simpl; [reflexivity|].
  destruct (Z.eqb_spec (ptr b) block) as [E|_]; [contradiction|exact IH].
Qed.

Lemma find_block_split (block : Z) (pre : list memory_block)
    (b : memory_block) (rest : list memory_block) :
  Forall (fun x => ptr x <> block) pre ->
  ptr b = block ->
  find_block block (pre ++ b :: rest) = Some b.
Proof.
  intros Hpre Hb.
  induction Hpre as [|x pre Hx _ IH]; simpl.
  - apply Z.eqb_eq in Hb. rewrite Hb. reflexivity.
  - destruct (Z.eqb_spec (ptr x) block) as [E|_]; [contradiction|exact IH].
Qed.

(** ** Contiguity *)

Lemma contiguous_le (a e : Z) (l : list memory_block) :
  contiguous a l e -> a <= e.
Proof.
  revert a. induction l as [|b l IH]; simpl; intros a H.
  - lia.
  - destruct H as (_ & Hs & Hl). apply IH in Hl. lia.
Qed.

Lemma contiguous_app (a e : Z) (l1 l2 : list memory_block) :
  contiguous a (l1 ++ l2) e <->
  exists m, contiguous a l1 m /\ contiguous m l2 e.
Proof.
  revert a. induction l1 as [|b l1 IH]; simpl; intros a.
  - split.
    + intros H. exists a. split; [reflexivity | exact H].
    + intros (m & -> & H). exact H.
  - rewrite IH. split.
    + intros (Hp & Hs & m & H1 & H2). exists m. tauto.
    + intros (m & (Hp & Hs & H1) & H2). repeat split; try assumption.
      exists m. tauto.
Qed.

Lemma contiguous_sum (a e : Z) (l : list memory_block) :
  contiguous a l e -> sum_sizes l = e - a.
Proof.
  revert a. induction l as [|b l IH]; simpl; intros a H.
  - lia.
  - destruct H as (_ & _ & Hl). apply IH in Hl. lia.
Qed.

Lemma contiguous_lookup (a e : Z) (l : list memory_block) (j : nat)
    (b : memory_block) :
  contiguous a l e -> l !! j = Some b ->
  a <= ptr b /\ 0 <= size b /\ ptr b + size b <= e.
Proof.
  revert a j. induction l as [|x l IH]; intros a j H Hj; [discriminate|].
  destruct H as (Hp & Hs & Hl).
  destruct j as [|j]; simpl in Hj.
  - injection Hj as ->. apply contiguous_le in Hl. lia.
  - destruct (IH _ _ Hl Hj) as (H1 & H2 & H3). lia.
Qed.

Lemma contiguous_non_overlapping (a e : Z) (l : list memory_block) :
  contiguous a l e -> non_overlapping l.
Proof.
  revert a. induction l as [|x l IH]; intros a H i j u v Hij Hi Hj.
  - discriminate.
  - destruct H as (Hp & Hs & Hl).
    destruct j as [|j]; [lia|]. simpl in Hj.
    destruct i as [|i]; simpl in Hi.
    + injection Hi as ->.
      destruct (contiguous_lookup _ _ _ _ _ Hl Hj) as (H1 & _). lia.
    + apply (IH _ Hl i j u v); [lia | assumption | assumption].
Qed.

Lemma non_overlapping_shared (a e : Z) (l : list memory_block) :
  contiguous a l e -> shared_address_only_after_empty l.
Proof.
  intros H i j u v Hij Hi Hj Heq.
  pose proof (contiguous_non_overlapping _ _ _ H i j u v Hij Hi Hj).
  destruct (contiguous_lookup _ _ _ _ _ H Hi) as (_ & Hs & _). lia.
Qed.

(** ** The invariant is kept by every call *)

Lemma fits_true (sz : Z) (b : memory_block) :
  fits sz b = true <-> free b <> 0 /\ sz <= size b.
Proof.
  unfold fits. rewrite andb_true_iff, negb_true_iff, Z.eqb_neq, Z.geb_le.
  reflexivity.
Qed.

Lemma alloc_walk_contiguous (a e sz : Z) (l : list memory_block) :
  0 <= a -> e < size_t_modulus -> 0 <= sz ->
  contiguous a l e -> contiguous a (snd (alloc_walk sz l)) e.
Proof.
  intros Ha He Hsz H.
  destruct (first_fit_cases sz l) as [Hno | (pre & b & post & -> & Hpre & Hb)].
  - rewrite alloc_walk_none by exact Hno. exact H.
  - rewrite alloc_walk_split by assumption. simpl.
    apply contiguous_app in H as (m & Hm & Hb').
    apply contiguous_app. exists m. split; [exact Hm|].
    simpl in Hb'. destruct Hb' as (Hp & Hs & Hpost).
    apply fits_true in Hb as (_ & Hle).
    pose proof (contiguous_le _ _ _ Hm).
    pose proof (contiguous_le _ _ _ Hpost).
    simpl. rewrite !wrap_small by lia.
    repeat split; try assumption; try lia.
    replace (m + sz + (size b - sz)) with (m + size b) by lia.
    exact Hpost.
Qed.

Lemma free_walk_contiguous (a e block : Z) (l : list memory_block) :
  0 <= a -> e < size_t_modulus ->
  contiguous a l e -> contiguous a (free_walk block l) e.
Proof.
  intros Ha He H.
  destruct (address_cases block l)
    as [Hno | (pre & b & rest & -> & Hpre & Hb)].
  - rewrite free_walk_absent by exact Hno. exact H.
  - rewrite free_walk_split by assumption.
    apply contiguous_app in H as (m & Hm & Hb').
    apply contiguous_app. exists m. split; [exact Hm|].
    simpl in Hb'. destruct Hb' as (Hp & Hs & Hrest).
    pose proof (contiguous_le _ _ _ Hm).
    destruct rest as [|next rest']; [simpl; auto|].
    destruct (free next =? 1); [|simpl; auto].
    simpl in Hrest. destruct Hrest as (Hp' & Hs' & Hrest').
    pose proof (contiguous_le _ _ _ Hrest').
    simpl. rewrite wrap_small by lia.
    repeat split; try assumption; try lia.
    replace (m + (size b + size next)) with (m + size b + size next) by lia.
    exact Hrest'.
Qed.

Lemma mem_init_inv (fresh : Z) (garbage : list byte) (total : Z) :
  0 < fresh -> 0 <= total -> fresh + total < size_t_modulus ->
  pool_inv total (mem_init fresh garbage total).
Proof.
  intros H1 H2 H3. constructor; simpl; try assumption.
  split; [reflexivity|]. split; [exact H2 | reflexivity].
Qed.

Lemma mem_alloc_inv (total sz : Z) (s : mm_state) :
  0 <= sz -> pool_inv total s -> pool_inv total (snd (mem_alloc sz s)).
Proof.
  intros Hsz [H1 H2 H3 H4]. unfold mem_alloc, no_lock_alloc.
  assert (0 <= memory_pool s) as H0 by lia.
  pose proof (alloc_walk_contiguous _ _ sz _ H0 H3 Hsz H4) as H.
  destruct (alloc_walk sz (first_block s)) as [p chain].
  constructor; simpl in *; assumption.
Qed.

Lemma mem_free_inv (total block : Z) (s : mm_state) :
  pool_inv total s -> pool_inv total (snd (mem_free block s)).
Proof.
  intros [H1 H2 H3 H4]. unfold mem_free, no_lock_free.
  constructor; simpl; try assumption.
  apply free_walk_contiguous; [lia | assumption | assumption].
Qed.

Lemma run_inv (total : Z) (cs : list call) (s : mm_state) :
  Forall call_ok cs -> pool_inv total s -> pool_inv total (run cs s).
Proof.
  intros Hcs. revert s.
  induction Hcs as [|c cs Hc _ IH]; intros s Hs; [exact Hs|].
  unfold run. simpl. apply IH.
  destruct c as [sz|block]; simpl in *.
  - apply mem_alloc_inv; [lia | exact Hs].
  - apply mem_free_inv. exact Hs.
Qed.

(** The invariant of a concrete run from [mem_init]. *)
Ltac concrete_pool_inv :=
  try (apply run_inv;
       [repeat constructor; unfold size_t_modulus; simpl; lia|]);
  apply mem_init_inv; unfold size_t_modulus; lia.

Lemma pool_inv_chain_invariant (total : Z) (s : mm_state) :
  pool_inv total s -> chain_invariant total s.
Proof.
  intros [H1 H2 H3 H4]. repeat split.
  - rewrite (contiguous_sum _ _ _ H4). lia.
  - exact H4.
  - exact (contiguous_non_overlapping _ _ _ H4).
  - exact (non_overlapping_shared _ _ _ H4).
Qed.

(** C1 (as the code has it).  From [mem_init] on, after every prefix of
    every sequence of [mem_alloc] and [mem_free] calls, the descriptor
    sizes add up to the pool size, the descriptors are byte-contiguous and
    do not overlap, and two descriptors share an address only when the
    earlier of the two has size zero. *)
Theorem chain_invariant_at_every_point
    (fresh : Z) (garbage : list byte) (total : Z) (cs : list call)
    (k : nat) :
  0 < fresh -> 0 <= total -> fresh + total < size_t_modulus ->
  Forall call_ok cs ->
  chain_invariant total (run (take k cs) (mem_init fresh garbage total)).
Proof.
  intros H1 H2 H3 Hcs.
  apply pool_inv_chain_invariant, run_inv.
  - apply Forall_take. exact Hcs.
  - apply mem_init_inv; assumption.
Qed.

Lemma chain_invariant_witness :
  chain_invariant 30
    (run (take 4 [Alloc 20; Alloc 10; Free 1000; Alloc 20; Free 1020])
         (mem_init 1000 (zeros 30) 30)).
Proof.
  apply chain_invariant_at_every_point.
  - lia.
  - lia.
  - unfold size_t_modulus. lia.
  - repeat constructor; unfold size_t_modulus; simpl; lia.
Defined.

(** C1 (as stated) fails: an exact fit in the middle of the chain leaves
    a zero-length descriptor at the address of its successor. *)
Lemma stated_chain_invariant_fails :
  ~ stated_chain_invariant 30
      (run [Alloc 20; Alloc 10; Free 1000; Alloc 20]
           (mem_init 1000 (zeros 30) 30)).
Proof.
  intros (_ & _ & _ & Hnodup).
  unfold distinct_addresses in Hnodup. vm_compute in Hnodup.
  apply NoDup_cons in Hnodup as [_ Hnodup].
  apply NoDup_cons in Hnodup as [Hnotin _].
  apply Hnotin. left.
Qed.

(** ** Allocation *)

Lemma contiguous_elem_of (a e : Z) (l : list memory_block)
    (b : memory_block) :
  contiguous a l e -> b ∈ l ->
  a <= ptr b /\ 0 <= size b /\ ptr b + size b <= e.
Proof.
  intros H Hb. apply list_elem_of_lookup in Hb as [j Hj].
  exact (contiguous_lookup _ _ _ _ _ H Hj).
Qed.

(** Under the invariant the arithmetic of a split does not wrap. *)
Lemma split_no_wrap (total sz : Z) (s : mm_state) (b : memory_block) :
  pool_inv total s -> b ∈ first_block s -> 0 <= sz -> sz <= size b ->
  wrap (ptr b + sz) = ptr b + sz /\ wrap (size b - sz) = size b - sz /\
  ptr b <> NULL.
Proof.
  intros [H1 H2 H3 H4] Hb Hsz Hle.
  destruct (contiguous_elem_of _ _ _ _ H4 Hb) as (Ha & Hs & He).
  unfold NULL. rewrite !wrap_small by lia. repeat split. lia.
Qed.

(** What [mem_alloc] does, in every state of an initialised pool. *)
Lemma mem_alloc_cases (total sz : Z) (s : mm_state) :
  pool_inv total s -> 0 <= sz ->
  (exists pre b post,
      first_block s = pre ++ b :: post /\
      Forall (fun x => fits sz x = false) pre /\
      fits sz b = true /\
      ptr b <> NULL /\
      mem_alloc sz s =
        (ptr b,
         MM (memory_pool s) (pool_data s)
            (pre ++ Block (ptr b) sz 0
                 :: Block (ptr b + sz) (size b - sz) 1 :: post))) \/
  (Forall (fun x => fits sz x = false) (first_block s) /\
   mem_alloc sz s = (NULL, s)).
Proof.
  intros Hinv Hsz. unfold mem_alloc, no_lock_alloc.
  destruct (first_fit_cases sz (first_block s))
    as [Hno | (pre & b & post & Heq & Hpre & Hb)].
  - right. split; [exact Hno|].
    rewrite alloc_walk_none by exact Hno. destruct s; reflexivity.
  - left. exists pre, b, post.
    assert (b ∈ first_block s) as Hin.
    { rewrite Heq. apply elem_of_app. right. left. }
    pose proof (proj1 (fits_true _ _) Hb) as (_ & Hle).
    destruct (split_no_wrap _ _ _ _ Hinv Hin Hsz Hle) as (W1 & W2 & Hnn).
    repeat split; try assumption.
    rewrite Heq, alloc_walk_split by assumption.
    rewrite W1, W2. reflexivity.
Qed.

(** C2.  [mem_alloc] is first-fit: the chain is scanned in order, the
    first descriptor that is free and large enough is marked used and cut
    down to the requested size, a free descriptor for the leftover bytes is
    linked between it and its old successor, and its address is returned;
    when no descriptor qualifies the chain is left as it is and the result
    is the null pointer, which no successful call returns. *)
Theorem mem_alloc_first_fit (total sz : Z) (s : mm_state) :
  pool_inv total s -> 0 <= sz < size_t_modulus ->
  (exists pre b post,
      first_block s = pre ++ b :: post /\
      Forall (fun x => free x = 0 \/ size x < sz) pre /\
      free b <> 0 /\ sz <= size b /\
      mem_alloc sz s =
        (ptr b,
         MM (memory_pool s) (pool_data s)
            (pre ++ Block (ptr b) sz 0
                 :: Block (ptr b + sz) (size b - sz) 1 :: post)) /\
      allocation_exhausted (ptr b) = false) \/
  (Forall (fun x => free x = 0 \/ size x < sz) (first_block s) /\
   mem_alloc sz s = (NULL, s) /\
   allocation_exhausted NULL = true).
Proof.
  intros Hinv [Hsz _].
  assert (forall l, Forall (fun x => fits sz x = false) l ->
                    Forall (fun x => free x = 0 \/ size x < sz) l) as Hconv.
  { intros l Hl. eapply Forall_impl; [exact Hl|]. intros x Hx.
    destruct (Z.eq_dec (free x) 0) as [E|E]; [left; exact E|right].
    destruct (Z_lt_le_dec (size x) sz) as [L|L]; [exact L|].
    assert (fits sz x = true) by (apply fits_true; split; assumption).
    congruence. }
  destruct (mem_alloc_cases _ _ _ Hinv Hsz)
    as [(pre & b & post & Heq & Hpre & Hb & Hnn & Hres) | (Hno & Hres)].
  - left. exists pre, b, post.
    apply fits_true in Hb as (Hf & Hle).
    repeat split; auto.
    unfold allocation_exhausted. apply Z.eqb_neq. exact Hnn.
  - right. repeat split; auto.
Qed.

Lemma mem_alloc_first_fit_witness :
  let s := run [Alloc 20; Alloc 10; Free 1000]
               (mem_init 1000 (zeros 30) 30) in
  (exists pre b post,
      first_block s = pre ++ b :: post /\
      Forall (fun x => free x = 0 \/ size x < 8) pre /\
      free b <> 0 /\ 8 <= size b /\
      mem_alloc 8 s =
        (ptr b,
         MM (memory_pool s) (pool_data s)
            (pre ++ Block (ptr b) 8 0
                 :: Block (ptr b + 8) (size b - 8) 1 :: post)) /\
      allocation_exhausted (ptr b) = false) \/
  (Forall (fun x => free x = 0 \/ size x < 8) (first_block s) /\
   mem_alloc 8 s = (NULL, s) /\
   allocation_exhausted NULL = true).
Proof.
  intros s. apply (mem_alloc_first_fit 30 8 s).
  - concrete_pool_inv.
  - unfold size_t_modulus. lia.
Defined.

(** C10.  Every successful [mem_alloc] links exactly one new free
    descriptor behind the one it matched, of the old size minus the
    requested size: the chain grows by one descriptor, and after an exact
    fit the new descriptor has size zero and stays in the chain. *)
Theorem mem_alloc_always_splits (total sz : Z) (s : mm_state) :
  pool_inv total s -> 0 <= sz < size_t_modulus ->
  fst (mem_alloc sz s) <> NULL ->
  exists pre b post,
    first_block s = pre ++ b :: post /\
    fits sz b = true /\
    first_block (snd (mem_alloc sz s)) =
      pre ++ Block (ptr b) sz 0
          :: Block (ptr b + sz) (size b - sz) 1 :: post /\
    length (first_block (snd (mem_alloc sz s))) =
      S (length (first_block s)) /\
    (size b = sz ->
     Block (ptr b + sz) 0 1 ∈ first_block (snd (mem_alloc sz s))).
Proof.
  intros Hinv [Hsz _] Hok.
  destruct (mem_alloc_cases _ _ _ Hinv Hsz)
    as [(pre & b & post & Heq & Hpre & Hb & Hnn & Hres) | (Hno & Hres)].
  - exists pre, b, post. rewrite Hres. simpl.
    repeat split; try assumption.
    + rewrite Heq, !length_app. simpl. lia.
    + intros <-. rewrite Z.sub_diag.
      apply elem_of_app. right. right. left.
  - rewrite Hres in Hok. simpl in Hok. contradiction.
Qed.

Lemma mem_alloc_always_splits_witness :
  let s := mem_init 1000 (zeros 16) 16 in
  exists pre b post,
    first_block s = pre ++ b :: post /\
    fits 16 b = true /\
    first_block (snd (mem_alloc 16 s)) =
      pre ++ Block (ptr b) 16 0
          :: Block (ptr b + 16) (size b - 16) 1 :: post /\
    length (first_block (snd (mem_alloc 16 s))) =
      S (length (first_block s)) /\
    (size b = 16 ->
     Block (ptr b + 16) 0 1 ∈ first_block (snd (mem_alloc 16 s))).
Proof.
  intros s. apply (mem_alloc_always_splits 16 16 s).
  - concrete_pool_inv.
  - unfold size_t_modulus. lia.
  - vm_compute. discriminate.
Defined.

Lemma mem_alloc_null_iff (total sz : Z) (s : mm_state) :
  pool_inv total s -> 0 <= sz ->
  fst (mem_alloc sz s) = NULL <->
  Forall (fun x => fits sz x = false) (first_block s).
Proof.
  intros Hinv Hsz.
  destruct (mem_alloc_cases _ _ _ Hinv Hsz)
    as [(pre & b & post & Heq & Hpre & Hb & Hnn & Hres) | (Hno & Hres)];
    rewrite Hres; simpl.
  - split; [intros E; contradiction|].
    rewrite Heq. intros Hall. apply Forall_app in Hall as [_ Hall].
    apply Forall_cons in Hall as [Hb' _]. congruence.
  - split; [intros _; exact Hno | reflexivity].
Qed.

(** The allocation leaves alone every descriptor that does not fit. *)
Lemma alloc_walk_keeps_small (sz : Z) (l : list memory_block)
    (b : memory_block) :
  b ∈ l -> fits sz b = false -> b ∈ snd (alloc_walk sz l).
Proof.
  intros Hb Hsmall.
  destruct (first_fit_cases sz l) as [Hno | (pre & m & post & -> & Hpre & Hm)].
  - rewrite alloc_walk_none by exact Hno. exact Hb.
  - rewrite alloc_walk_split by assumption. simpl.
    apply elem_of_app in Hb as [Hb|Hb].
    + apply elem_of_app. left. exact Hb.
    + apply elem_of_cons in Hb as [->|Hb]; [congruence|].
      apply elem_of_app. right. right. right. exact Hb.
Qed.

(** ** Freeing *)

(** C4 (as the code has it).  [mem_free] of an address that no descriptor
    has leaves the pool state as it is and reports nothing: the function
    returns no value. *)
Theorem mem_free_unknown_address_silent (block : Z) (s : mm_state) :
  Forall (fun x => ptr x <> block) (first_block s) ->
  mem_free block s = (tt, s).
Proof.
  intros Hno. unfold mem_free, no_lock_free.
  rewrite free_walk_absent by exact Hno. destruct s; reflexivity.
Qed.

Lemma mem_free_unknown_address_silent_witness :
  let s := run [Alloc 16] (mem_init 1000 (zeros 64) 64) in
  mem_free 2000 s = (tt, s).
Proof.
  intros s. apply (mem_free_unknown_address_silent 2000 s).
  repeat constructor; vm_compute; discriminate.
Defined.

(** C4 (as stated) fails: whatever a caller reads off the result of
    [mem_free], it reads the same after a call with an unknown address
    (2000) and after a call that freed a block (1000). *)
Lemma mem_free_reports_no_error :
  let s := run [Alloc 16] (mem_init 1000 (zeros 64) 64) in
  Forall (fun x => ptr x <> 2000) (first_block s) /\
  ~ exists report : unit -> free_report,
      report (fst (mem_free 2000 s)) = BlockNotFound /\
      report (fst (mem_free 1000 s)) = Freed.
Proof.
  intros s. split.
  - repeat constructor; vm_compute; discriminate.
  - intros (report & Hbad & Hgood). simpl in Hbad, Hgood. congruence.
Qed.

Lemma merged_pair_head (a b : memory_block) (post : list memory_block) :
  Forall (fun x => 0 <= size x) post ->
  exists m rest,
    merged_pair a b post = m :: rest /\
    ptr m = ptr a /\ free m = 1 /\ size a + size b <= size m.
Proof.
  intros Hpost. unfold merged_pair.
  destruct post as [|c post'].
  - eexists _, _. split; [reflexivity|]. simpl. lia.
  - apply Forall_cons in Hpost as [Hc _].
    destruct (free c =? 1); eexists _, _; (split; [reflexivity|]);
      simpl; lia.
Qed.

Lemma contiguous_sizes (a e : Z) (l : list memory_block) :
  contiguous a l e -> Forall (fun x => 0 <= size x) l.
Proof.
  intros H. apply Forall_forall. intros x Hx.
  destruct (contiguous_elem_of _ _ _ _ H Hx) as (_ & Hs & _). exact Hs.
Qed.

(** Freeing the later of two adjacent used blocks and then the earlier
    one leaves the earlier descriptor with both sizes (and the size of a
    free descriptor that followed the pair). *)
Lemma free_later_then_earlier (total : Z) (s : mm_state)
    (pre : list memory_block) (a b : memory_block)
    (post : list memory_block) :
  pool_inv total s ->
  first_block s = pre ++ a :: b :: post ->
  free a = 0 -> free b = 0 -> 0 < size a ->
  Forall (fun x => ptr x <> ptr a) pre ->
  first_block (run [Free (ptr b); Free (ptr a)] s) =
    pre ++ merged_pair a b post.
Proof.
  intros Hinv Heq Hfa Hfb Hsa Hpre.
  destruct Hinv as [H1 H2 H3 H4]. rewrite Heq in H4.
  apply contiguous_app in H4 as (m & Hm & Hab).
  simpl in Hab. destruct Hab as (Hpa & _ & Hpb & Hsb & Hpost).
  pose proof (contiguous_le _ _ _ Hm) as Hle1.
  pose proof (contiguous_le _ _ _ Hpost) as Hle2.
  assert (Forall (fun x => ptr x <> ptr b) (pre ++ [a])) as Hpre'.
  { apply Forall_app. split.
    - apply Forall_forall. intros x Hx.
      destruct (contiguous_elem_of _ _ _ _ Hm Hx) as (_ & Hs & He). lia.
    - repeat constructor. lia. }
  unfold run. simpl. rewrite Heq.
  replace (pre ++ a :: b :: post) with ((pre ++ [a]) ++ b :: post)
    by (rewrite <- app_assoc; reflexivity).
  rewrite free_walk_split by (assumption || reflexivity).
  rewrite <- app_assoc. simpl.
  unfold merged_pair.
  destruct post as [|c post'].
  - rewrite free_walk_split by (assumption || reflexivity). simpl.
    rewrite wrap_small by lia. reflexivity.
  - simpl in Hpost. destruct Hpost as (Hpc & Hsc & Hpost').
    pose proof (contiguous_le _ _ _ Hpost') as Hle3.
    destruct (free c =? 1).
    + rewrite free_walk_split by (assumption || reflexivity). simpl.
      rewrite (wrap_small (size b + size c)) by lia.
      rewrite wrap_small by lia.
      replace (size a + (size b + size c)) with (size a + size b + size c)
        by lia.
      reflexivity.
    + rewrite free_walk_split by (assumption || reflexivity). simpl.
      rewrite wrap_small by lia. reflexivity.
Qed.

(** C5 (as the code has it).  Two chain-adjacent used blocks, the later
    one freed first and then the earlier one: the earlier descriptor
    becomes one free descriptor with the sum of their sizes, plus the size
    of the descriptor behind the pair when that one was free; allocating
    the sum afterwards succeeds, and returns the lower of the two addresses
    unless a free descriptor earlier in the chain is large enough. *)
Theorem free_adjacent_pair_merges (total : Z) (s : mm_state)
    (pre : list memory_block) (a b : memory_block)
    (post : list memory_block) :
  pool_inv total s ->
  first_block s = pre ++ a :: b :: post ->
  free a = 0 -> free b = 0 -> 0 < size a ->
  Forall (fun x => ptr x <> ptr a) pre ->
  let s2 := run [Free (ptr b); Free (ptr a)] s in
  first_block s2 = pre ++ merged_pair a b post /\
  fst (mem_alloc (size a + size b) s2) <> NULL /\
  (Forall (fun x => fits (size a + size b) x = false) pre ->
   fst (mem_alloc (size a + size b) s2) = ptr a /\ ptr a < ptr b).
Proof.
  intros Hinv Heq Hfa Hfb Hsa Hpre s2.
  pose proof (free_later_then_earlier _ _ _ _ _ _ Hinv Heq Hfa Hfb Hsa Hpre)
    as Hchain. fold s2 in Hchain.
  assert (pool_inv total s2) as Hinv2.
  { apply run_inv; [|exact Hinv].
    destruct Hinv as [H1 H2 H3 H4]. rewrite Heq in H4.
    assert (a ∈ pre ++ a :: b :: post) as Ha
      by (apply elem_of_app; right; left).
    assert (b ∈ pre ++ a :: b :: post) as Hb
      by (apply elem_of_app; right; right; left).
    destruct (contiguous_elem_of _ _ _ _ H4 Ha) as (? & ? & ?).
    destruct (contiguous_elem_of _ _ _ _ H4 Hb) as (? & ? & ?).
    repeat constructor; simpl; lia. }
  destruct Hinv as [H1 H2 H3 H4]. rewrite Heq in H4.
  apply contiguous_app in H4 as (m0 & Hm & Hab).
  simpl in Hab. destruct Hab as (Hpa & _ & Hpb & Hsb & Hpost).
  destruct (merged_pair_head a b post (contiguous_sizes _ _ _ Hpost))
    as (m & rest & Hmp & Hpm & Hfm & Hsm).
  assert (fits (size a + size b) m = true) as Hfit
    by (apply fits_true; split; lia).
  assert (0 <= size a + size b) as Hnn by lia.
  split; [exact Hchain|]. split.
  - rewrite (mem_alloc_null_iff _ _ _ Hinv2 Hnn), Hchain, Hmp.
    intros Hall. apply Forall_app in Hall as [_ Hall].
    apply Forall_cons in Hall as [Hm' _]. congruence.
  - intros Hsmall. split; [|lia].
    unfold mem_alloc, no_lock_alloc. rewrite Hchain, Hmp.
    rewrite alloc_walk_split by assumption. simpl. exact Hpm.
Qed.

Lemma free_adjacent_pair_merges_witness :
  let s := run [Alloc 10; Alloc 10] (mem_init 1000 (zeros 20) 20) in
  let s2 := run [Free 1010; Free 1000] s in
  first_block s2 = [Block 1000 20 1] /\
  fst (mem_alloc 20 s2) <> NULL /\
  (Forall (fun x => fits 20 x = false) [] ->
   fst (mem_alloc 20 s2) = 1000 /\ 1000 < 1010).
Proof.
  intros s.
  apply (free_adjacent_pair_merges 20 s []
           (Block 1000 10 0) (Block 1010 10 0) [Block 1020 0 1]).
  - concrete_pool_inv.
  - reflexivity.
  - reflexivity.
  - reflexivity.
  - simpl. lia.
  - constructor.
Defined.

(** C5 (as stated) fails.  (1) In a full 20-byte pool, freeing the
    earlier block first leaves two free descriptors of 10 bytes, and
    allocating 20 bytes fails.  (2) In a 100-byte pool, freeing the later
    block first merges it with the free remainder too: no descriptor has
    size 20.  (3) With a free block of 50 bytes earlier in the chain, the
    pair does merge into one descriptor of 20 bytes at 1050, but first-fit
    serves the request for 20 bytes from address 1000.  (4) With a
    zero-length descriptor at the address of the earlier block, freeing
    that address stops at the zero-length descriptor and the block stays
    used. *)
Lemma stated_merge_fails :
  (let s := run [Alloc 10; Alloc 10] (mem_init 1000 (zeros 20) 20) in
   first_block s = [Block 1000 10 0; Block 1010 10 0; Block 1020 0 1] /\
   ~ stated_merge s (Block 1000 10 0) (Block 1010 10 0)) /\
  (let s := run [Alloc 10; Alloc 10] (mem_init 1000 (zeros 100) 100) in
   first_block s = [Block 1000 10 0; Block 1010 10 0; Block 1020 80 1] /\
   ~ stated_merge s (Block 1010 10 0) (Block 1000 10 0)) /\
  (let s := run [Alloc 50; Alloc 10; Alloc 10; Alloc 30; Free 1000]
                (mem_init 1000 (zeros 100) 100) in
   first_block s =
     [Block 1000 50 1; Block 1050 10 0; Block 1060 10 0; Block 1070 30 0;
      Block 1100 0 1] /\
   ~ stated_merge s (Block 1060 10 0) (Block 1050 10 0)) /\
  (let s := run [Alloc 20; Alloc 10; Alloc 10; Free 1000; Alloc 20]
                (mem_init 1000 (zeros 40) 40) in
   first_block s =
     [Block 1000 20 0; Block 1020 0 1; Block 1020 10 0; Block 1030 10 0;
      Block 1040 0 1] /\
   ~ stated_merge s (Block 1030 10 0) (Block 1020 10 0)).
Proof.
  repeat split.
  - intros (_ & Hok & _). vm_compute in Hok. apply Hok. reflexivity.
  - intros ((m & Hm & _ & Hsz) & _). vm_compute in Hm.
    apply list_elem_of_singleton in Hm as ->. vm_compute in Hsz.
    discriminate.
  - intros (_ & _ & Haddr). vm_compute in Haddr. discriminate.
  - intros (_ & Hok & _). vm_compute in Hok. apply Hok. reflexivity.
Qed.

(** ** Resizing *)

(** C6 (the code faults).  [mem_resize] of an address that no descriptor
    has leaves the search loop with [current_block == NULL] and then reads
    [current_block->size]. *)
Theorem mem_resize_unknown_address_faults (block sz : Z) (s : mm_state) :
  Forall (fun x => ptr x <> block) (first_block s) ->
  mem_resize block sz s = Fault.
Proof.
  intros Hno. unfold mem_resize.
  rewrite find_block_absent by exact Hno. reflexivity.
Qed.

Lemma mem_resize_unknown_address_faults_witness :
  mem_resize 1001 8 (run [Alloc 16] (mem_init 1000 (zeros 64) 64)) = Fault.
Proof.
  apply mem_resize_unknown_address_faults.
  repeat constructor; vm_compute; discriminate.
Defined.

(** C7 (the code moves a block that is large enough).  In a 40-byte pool
    the sequence alloc 20, alloc 10, free 1000, alloc 20 leaves the used
    10-byte block at 1020 behind a zero-length descriptor with the same
    address.  [mem_resize(1020, 5)] finds the zero-length descriptor, takes
    the block to be too small, allocates 5 bytes at 1030 and returns that
    address: the chain has changed, no byte has been copied, and the block
    at 1020 is still marked used. *)
Theorem mem_resize_shared_address_moves :
  let init := mem_init 1000 (ramp 40) 40 in
  let s := run [Alloc 20; Alloc 10; Free 1000; Alloc 20] init in
  fst (mem_alloc 10 (run [Alloc 20] init)) = 1020 /\
  first_block s =
    [Block 1000 20 0; Block 1020 0 1; Block 1020 10 0; Block 1030 10 1] /\
  exists s',
    mem_resize 1020 5 s = Returns (1030, s') /\
    first_block s' =
      [Block 1000 20 0; Block 1020 0 1; Block 1020 10 0;
       Block 1030 5 0; Block 1035 5 1] /\
    pool_data s' = pool_data s /\
    take 5 (drop 30 (pool_data s')) <> take 5 (drop 20 (pool_data s)).
Proof.
  intros init s. split; [reflexivity|]. split; [reflexivity|].
  eexists. split; [reflexivity|].
  split; [reflexivity|]. split; [reflexivity|].
  vm_compute. discriminate.
Qed.

(** X29.  A block whose descriptor is the first of the chain, or stands
    behind a descriptor of non-zero size, is resized in place: when its
    size is the requested size or more, [mem_resize] returns the address
    it was given and changes neither the chain nor the bytes of the
    pool. *)
Theorem mem_resize_in_place (total sz : Z) (s : mm_state)
    (pre : list memory_block) (b : memory_block)
    (post : list memory_block) :
  pool_inv total s ->
  first_block s = pre ++ b :: post ->
  (forall p, last pre = Some p -> 0 < size p) ->
  sz <= size b ->
  mem_resize (ptr b) sz s = Returns (ptr b, s).
Proof.
  intros [H1 H2 H3 H4] Heq Hlast Hle.
  assert (Forall (fun x => ptr x <> ptr b) pre) as Hpre.
  { rewrite Heq in H4. clear Heq.
    destruct pre as [|p pre' _] using rev_ind; [constructor|].
    specialize (Hlast p (last_snoc _ _)).
    rewrite <- app_assoc in H4.
    apply contiguous_app in H4 as (m & Hm & Hrest).
    simpl in Hrest. destruct Hrest as (Hp & _ & Hb & _).
    apply Forall_app. split.
    - apply Forall_forall. intros x Hx.
      destruct (contiguous_elem_of _ _ _ _ Hm Hx) as (_ & Hs & He). lia.
    - apply Forall_cons. split; [lia | constructor]. }
  unfold mem_resize. rewrite Heq, find_block_split by auto.
  destruct (Z.geb_spec (size b) sz) as [_|Hlt]; [reflexivity | lia].
Qed.

Lemma mem_resize_in_place_witness :
  let s := run [Alloc 8; Alloc 8] (mem_init 1000 (zeros 256) 256) in
  mem_resize 1008 4 s = Returns (1008, s).
Proof.
  intros s.
  apply (mem_resize_in_place 256 4 s [Block 1000 8 0] (Block 1008 8 0)
           [Block 1016 240 1]).
  - concrete_pool_inv.
  - reflexivity.
  - intros p [= <-]. simpl. lia.
  - simpl. lia.
Defined.

(** X27.  When the block must grow and no free descriptor is large
    enough, [mem_resize] returns the null pointer and changes nothing:
    the old block stays allocated with its bytes. *)
Lemma mem_resize_exhausted (block sz : Z) (s : mm_state) (b : memory_block) :
  find_block block (first_block s) = Some b ->
  size b < sz ->
  Forall (fun x => fits sz x = false) (first_block s) ->
  mem_resize block sz s = Returns (NULL, s).
Proof.
  intros Hfind Hlt Hno. unfold mem_resize, no_lock_alloc. rewrite Hfind.
  destruct (Z.geb_spec (size b) sz) as [Hge|_]; [lia|].
  rewrite alloc_walk_none by exact Hno. simpl. destruct s; reflexivity.
Qed.

Lemma find_block_Some (block : Z) (l : list memory_block)
    (b : memory_block) :
  find_block block l = Some b -> ptr b = block /\ b ∈ l.
Proof.
  induction l as [|x l IH]; simpl; [discriminate|].
  destruct (Z.eqb_spec (ptr x) block) as [E|_].
  - intros [= <-]. split; [exact E | left].
  - intros H. destruct (IH H) as [Hp Hin]. split; [exact Hp | right; exact Hin].
Qed.

(** The bytes [memcpy] leaves at the destination are those it found at
    the source. *)
Lemma memcpy_copies (dst src n : Z) (s : mm_state) :
  0 <= n -> memory_pool s <= dst -> memory_pool s <= src ->
  dst + n <= memory_pool s + Z.of_nat (length (pool_data s)) ->
  src + n <= memory_pool s + Z.of_nat (length (pool_data s)) ->
  take (Z.to_nat n) (drop (Z.to_nat (dst - memory_pool s)) (memcpy dst src n s))
  = take (Z.to_nat n) (drop (Z.to_nat (src - memory_pool s)) (pool_data s)).
Proof.
  intros Hn Hd Hs Hde Hse. unfold memcpy.
  set (d := Z.to_nat (dst - memory_pool s)).
  set (o := Z.to_nat (src - memory_pool s)).
  set (k := take (Z.to_nat n) (drop o (pool_data s))).
  assert (length k = Z.to_nat n) as Hk.
  { unfold k. rewrite length_take, length_drop. lia. }
  apply list_eq. intros i.
  destruct (Nat.lt_ge_cases i (Z.to_nat n)) as [Hi|Hi].
  - rewrite lookup_take_lt, lookup_drop by exact Hi.
    rewrite list_lookup_inserts by lia.
    replace (d + i - d)%nat with i by lia. reflexivity.
  - rewrite lookup_take_ge by exact Hi.
    symmetry. apply lookup_ge_None. rewrite Hk. exact Hi.
Qed.

(** X28.  When the block must grow, the inner allocation succeeds, and
    afterwards the old block's descriptor is still the first one at its
    address, [mem_resize] returns the new address with the old bytes
    copied to it, and the descriptor at the old address is free. *)
Lemma mem_resize_grows_unaliased (total block sz : Z) (s : mm_state)
    (cur : memory_block) (pre1 post1 : list memory_block) :
  pool_inv total s ->
  Z.of_nat (length (pool_data s)) = total ->
  0 <= sz ->
  find_block block (first_block s) = Some cur ->
  size cur < sz ->
  fst (mem_alloc sz s) <> NULL ->
  first_block (snd (mem_alloc sz s)) = pre1 ++ cur :: post1 ->
  Forall (fun x => ptr x <> block) pre1 ->
  exists s' b',
    mem_resize block sz s = Returns (fst (mem_alloc sz s), s') /\
    take (Z.to_nat (size cur))
         (drop (Z.to_nat (fst (mem_alloc sz s) - memory_pool s))
               (pool_data s'))
    = take (Z.to_nat (size cur))
           (drop (Z.to_nat (block - memory_pool s)) (pool_data s)) /\
    find_block block (first_block s') = Some b' /\ free b' = 1.
Proof.
  intros Hinv Hlen Hsz Hfind Hlt Hok Hchain Hpre1.
  destruct (find_block_Some _ _ _ Hfind) as [Hpc Hcin].
  pose proof Hinv as [H1 H2 H3 H4].
  destruct (contiguous_elem_of _ _ _ _ H4 Hcin) as (Hc1 & Hc2 & Hc3).
  destruct (mem_alloc_cases _ _ _ Hinv Hsz)
    as [(pre & m & post & Heq & Hpre & Hm & Hnn & Hres) | (Hno & Hres)];
    [|rewrite Hres in Hok; simpl in Hok; contradiction].
  assert (m ∈ first_block s) as Hmin
    by (rewrite Heq; apply elem_of_app; right; left).
  destruct (contiguous_elem_of _ _ _ _ H4 Hmin) as (Hm1 & Hm2 & Hm3).
  apply fits_true in Hm as (_ & Hle).
  unfold mem_resize. rewrite Hfind.
  destruct (Z.geb_spec (size cur) sz) as [Hge|_]; [lia|].
  unfold mem_alloc in Hres, Hchain |- *. rewrite Hres in Hchain |- *.
  simpl in Hchain |- *.
  destruct (Z.eqb_spec (ptr m) NULL) as [E|_]; [contradiction|]. simpl.
  rewrite Hchain, free_walk_split by assumption.
  assert (take (Z.to_nat (size cur))
            (drop (Z.to_nat (ptr m - memory_pool s))
               (memcpy (ptr m) block (size cur)
                  (MM (memory_pool s) (pool_data s) (pre1 ++ cur :: post1))))
          = take (Z.to_nat (size cur))
              (drop (Z.to_nat (block - memory_pool s)) (pool_data s)))
    as Hcopy
    by (apply (memcpy_copies (ptr m) block (size cur)
                 (MM (memory_pool s) (pool_data s) (pre1 ++ cur :: post1)));
        simpl; lia).
  destruct post1 as [|next rest']; [|destruct (free next =? 1)];
    eexists _, _; (split; [reflexivity|]); simpl;
    (split; [exact Hcopy|]);
    (split; [apply find_block_split; [exact Hpre1 | exact Hpc]
            | reflexivity]).
Qed.

(** A run of both paths: in a 256-byte pool a block of 8 bytes stays where
    it is when resized to 4 bytes, and moves to 1008 when resized to 16
    bytes, its 8 bytes copied and its old descriptor free. *)
Example mem_resize_scenario :
  let s := run [Alloc 8] (mem_init 1000 (ramp 256) 256) in
  mem_resize 1000 4 s = Returns (1000, s) /\
  match mem_resize 1000 16 s with
  | Returns (p, s') =>
      p = 1008 /\
      first_block s' = [Block 1000 8 1; Block 1008 16 0; Block 1024 232 1] /\
      take 8 (drop 8 (pool_data s')) = take 8 (pool_data s)
  | _ => False
  end.
Proof. vm_compute. repeat split. Qed.

(** C8 (the code misses the free).  In a 30-byte pool with a free block
    of 20 bytes in front of a used block of 10 bytes at 1020, growing the
    latter to 20 bytes is an exact fit for the former: the call returns
    1000 with the 10 old bytes copied, but [no_lock_free(1020)] stops at
    the zero-length descriptor the allocation has just linked in at 1020,
    so the old block stays used and its bytes cannot be allocated again. *)
Theorem mem_resize_leaks_old_block :
  let s := run [Alloc 20; Alloc 10; Free 1000]
               (mem_init 1000 (ramp 30) 30) in
  first_block s = [Block 1000 20 1; Block 1020 10 0; Block 1030 0 1] /\
  exists s',
    mem_resize 1020 20 s = Returns (1000, s') /\
    first_block s' =
      [Block 1000 20 0; Block 1020 0 1; Block 1020 10 0; Block 1030 0 1] /\
    take 10 (pool_data s') = take 10 (drop 20 (pool_data s)) /\
    fst (mem_alloc 10 s') = NULL.
Proof.
  intros s. split; [reflexivity|].
  eexists. split; [reflexivity|].
  split; [reflexivity|]. split; reflexivity.
Qed.

(** ** Further properties of allocation *)

(** X1.  A request larger than the whole pool is refused: [mem_alloc]
    returns the null pointer and leaves the state as it is. *)
Theorem mem_alloc_larger_than_pool (total sz : Z) (s : mm_state) :
  pool_inv total s -> total < sz -> mem_alloc sz s = (NULL, s).
Proof.
  intros Hinv Hlt. unfold mem_alloc, no_lock_alloc.
  rewrite alloc_walk_none; [destruct s; reflexivity|].
  apply Forall_forall. intros b Hb.
  destruct Hinv as [H1 H2 H3 H4].
  destruct (contiguous_elem_of _ _ _ _ H4 Hb) as (Ha & Hs & He).
  destruct (fits sz b) eqn:Hfit; [|reflexivity].
  apply fits_true in Hfit as (_ & Hle). lia.
Qed.

Lemma mem_alloc_larger_than_pool_witness :
  mem_alloc 65 (mem_init 1000 (zeros 64) 64) =
    (NULL, mem_init 1000 (zeros 64) 64).
Proof.
  apply (mem_alloc_larger_than_pool 64).
  - concrete_pool_inv.
  - lia.
Defined.

(** The block of a successful [mem_alloc] shares no byte with a block
    that was in use. *)
Lemma mem_alloc_match_disjoint (total sz : Z) (s : mm_state)
    (b : memory_block) :
  pool_inv total s -> 0 <= sz ->
  fst (mem_alloc sz s) <> NULL ->
  b ∈ first_block s -> free b = 0 ->
  ptr b + size b <= fst (mem_alloc sz s) \/
  fst (mem_alloc sz s) + sz <= ptr b.
Proof.
  intros Hinv Hsz Hok Hb Hused.
  destruct (mem_alloc_cases _ _ _ Hinv Hsz)
    as [(pre & m & post & Heq & Hpre & Hm & Hnn & Hres) | (Hno & Hres)];
    [|rewrite Hres in Hok; simpl in Hok; contradiction].
  rewrite Hres. simpl.
  destruct Hinv as [H1 H2 H3 H4].
  apply fits_true in Hm as (Hfree & Hle).
  assert (first_block s !! length pre = Some m) as Hidx.
  { rewrite Heq. apply list_lookup_middle. reflexivity. }
  apply list_elem_of_lookup in Hb as [i Hi].
  pose proof (contiguous_non_overlapping _ _ _ H4) as Hno.
  destruct (lt_eq_lt_dec i (length pre)) as [[Hlt|Heqi]|Hgt].
  - left. exact (Hno _ _ _ _ Hlt Hi Hidx).
  - subst i. rewrite Hidx in Hi. injection Hi as ->. contradiction.
  - right. pose proof (Hno _ _ _ _ Hgt Hidx Hi). lia.
Qed.

(** X2.  The block a successful [mem_alloc] returns lies inside the pool
    and shares no byte with any block that was in use before the call. *)
Theorem mem_alloc_block_is_fresh (total sz : Z) (s : mm_state) :
  pool_inv total s -> 0 <= sz ->
  fst (mem_alloc sz s) <> NULL ->
  memory_pool s <= fst (mem_alloc sz s) /\
  fst (mem_alloc sz s) + sz <= memory_pool s + total /\
  forall b, b ∈ first_block s -> free b = 0 ->
    ptr b + size b <= fst (mem_alloc sz s) \/
    fst (mem_alloc sz s) + sz <= ptr b.
Proof.
  intros Hinv Hsz Hok.
  assert (memory_pool s <= fst (mem_alloc sz s) /\
          fst (mem_alloc sz s) + sz <= memory_pool s + total) as [Hlo Hhi].
  { destruct (mem_alloc_cases _ _ _ Hinv Hsz)
      as [(pre & m & post & Heq & Hpre & Hm & Hnn & Hres) | (Hno & Hres)];
      [|rewrite Hres in Hok; simpl in Hok; contradiction].
    rewrite Hres. simpl.
    destruct Hinv as [H1 H2 H3 H4].
    apply fits_true in Hm as (_ & Hle).
    assert (m ∈ first_block s) as Hmin
      by (rewrite Heq; apply elem_of_app; right; left).
    destruct (contiguous_elem_of _ _ _ _ H4 Hmin) as (Ha & Hs & He). lia. }
  split; [exact Hlo|]. split; [exact Hhi|].
  intros b Hb Hused.
  exact (mem_alloc_match_disjoint total sz s b Hinv Hsz Hok Hb Hused).
Qed.

Lemma mem_alloc_block_is_fresh_witness :
  let s := run [Alloc 16; Alloc 16; Free 1000] (mem_init 1000 (zeros 64) 64) in
  memory_pool s <= fst (mem_alloc 8 s) /\
  fst (mem_alloc 8 s) + 8 <= memory_pool s + 64 /\
  forall b, b ∈ first_block s -> free b = 0 ->
    ptr b + size b <= fst (mem_alloc 8 s) \/
    fst (mem_alloc 8 s) + 8 <= ptr b.
Proof.
  intros s. apply (mem_alloc_block_is_fresh 64 8 s).
  - concrete_pool_inv.
  - lia.
  - vm_compute. discriminate.
Defined.

(** X3.  Every call of [mem_resize] that returns keeps the invariant of
    the pool (and with it the chain invariant), and the pool keeps its
    length. *)
Theorem mem_resize_keeps_invariant (total block sz p : Z)
    (s s' : mm_state) :
  pool_inv total s -> 0 <= sz ->
  mem_resize block sz s = Returns (p, s') ->
  pool_inv total s' /\ chain_invariant total s' /\
  length (pool_data s') = length (pool_data s).
Proof.
  intros Hinv Hsz Hres.
  enough (pool_inv total s' /\ length (pool_data s') = length (pool_data s))
    as [Hinv' Hlen]
    by (split; [exact Hinv' | split;
          [exact (pool_inv_chain_invariant _ _ Hinv') | exact Hlen]]).
  unfold mem_resize in Hres.
  destruct (find_block block (first_block s)) as [cur|]; [|discriminate].
  destruct (size cur >=? sz).
  - injection Hres as <- <-. split; [exact Hinv | reflexivity].
  - pose proof (mem_alloc_inv total sz s Hsz Hinv) as Hinv1.
    unfold mem_alloc in Hinv1.
    assert (pool_data (snd (no_lock_alloc sz s)) = pool_data s) as Hdata.
    { unfold no_lock_alloc.
      destruct (alloc_walk sz (first_block s)); reflexivity. }
    destruct (no_lock_alloc sz s) as [new_ptr s1]. simpl in Hinv1, Hdata.
    destruct (negb (new_ptr =? NULL)).
    + simpl in Hres. injection Hres as <- <-.
      destruct Hinv1 as [H1 H2 H3 H4]. split.
      * constructor; simpl; try assumption.
        apply free_walk_contiguous; [lia | assumption | assumption].
      * simpl. unfold memcpy. rewrite length_inserts. simpl.
        rewrite Hdata. reflexivity.
    + injection Hres as <- <-. split; [exact Hinv1 | rewrite Hdata; reflexivity].
Qed.

Lemma mem_resize_keeps_invariant_witness :
  let s := run [Alloc 8] (mem_init 1000 (zeros 64) 64) in
  let s' := MM 1000 (zeros 64)
              [Block 1000 8 1; Block 1008 16 0; Block 1024 40 1] in
  pool_inv 64 s' /\ chain_invariant 64 s' /\
  length (pool_data s') = length (pool_data s).
Proof.
  intros s s'. apply (mem_resize_keeps_invariant 64 1000 16 1008 s s').
  - concrete_pool_inv.
  - lia.
  - vm_compute. reflexivity.
Defined.

(** ** Shape of the chain along a run *)

Lemma alloc_walk_flags (sz : Z) (l : list memory_block) :
  flags_ok l -> flags_ok (snd (alloc_walk sz l)).
Proof.
  intros Hl.
  destruct (first_fit_cases sz l) as [Hno | (pre & m & post & -> & Hpre & Hm)].
  - rewrite alloc_walk_none by exact Hno. exact Hl.
  - rewrite alloc_walk_split by assumption. simpl.
    apply Forall_app in Hl as [Hl1 Hl2]. apply Forall_cons in Hl2 as [_ Hl2].
    apply Forall_app. split; [exact Hl1|].
    apply Forall_cons. split; [simpl; auto|].
    apply Forall_cons. split; [simpl; auto | exact Hl2].
Qed.

Lemma free_walk_flags (block : Z) (l : list memory_block) :
  flags_ok l -> flags_ok (free_walk block l).
Proof.
  intros Hl.
  destruct (address_cases block l)
    as [Hno | (pre & b & rest & -> & Hpre & Hb)].
  - rewrite free_walk_absent by exact Hno. exact Hl.
  - rewrite free_walk_split by assumption.
    apply Forall_app in Hl as [Hl1 Hl2]. apply Forall_cons in Hl2 as [_ Hl2].
    apply Forall_app. split; [exact Hl1|].
    destruct rest as [|next rest'].
    + apply Forall_cons. split; [simpl; auto | constructor].
    + pose proof Hl2 as Hl2'. apply Forall_cons in Hl2' as [Hn Hl3].
      destruct (free next =? 1); apply Forall_cons; (split; [simpl; auto|]);
        assumption.
Qed.

Lemma alloc_walk_nonempty (sz : Z) (l : list memory_block) :
  l <> [] -> snd (alloc_walk sz l) <> [].
Proof.
  destruct l as [|b l]; [contradiction|]. intros _. simpl.
  destruct (fits sz b); [discriminate|].
  destruct (alloc_walk sz l). discriminate.
Qed.

Lemma free_walk_nonempty (block : Z) (l : list memory_block) :
  l <> [] -> free_walk block l <> [].
Proof.
  destruct l as [|b l]; [contradiction|]. intros _. simpl.
  destruct (ptr b =? block); [|discriminate].
  destruct l as [|next l']; [discriminate|].
  destruct (free next =? 1); discriminate.
Qed.

Lemma run_shape (cs : list call) (s : mm_state) :
  first_block s <> [] -> flags_ok (first_block s) ->
  first_block (run cs s) <> [] /\ flags_ok (first_block (run cs s)).
Proof.
  revert s. induction cs as [|c cs IH]; intros s Hne Hfl; [split; assumption|].
  unfold run. simpl. apply IH.
  - destruct c as [sz|block]; simpl.
    + unfold mem_alloc, no_lock_alloc.
      pose proof (alloc_walk_nonempty sz _ Hne).
      destruct (alloc_walk sz (first_block s)). assumption.
    + apply free_walk_nonempty. exact Hne.
  - destruct c as [sz|block]; simpl.
    + unfold mem_alloc, no_lock_alloc.
      pose proof (alloc_walk_flags sz _ Hfl).
      destruct (alloc_walk sz (first_block s)). assumption.
    + apply free_walk_flags. exact Hfl.
Qed.

Lemma run_memory_pool (cs : list call) (s : mm_state) :
  memory_pool (run cs s) = memory_pool s.
Proof.
  revert s. induction cs as [|c cs IH]; intros s; [reflexivity|].
  unfold run. simpl. fold (run cs (step s c)). rewrite IH.
  destruct c as [sz|block]; simpl; [|reflexivity].
  unfold mem_alloc, no_lock_alloc.
  destruct (alloc_walk sz (first_block s)). reflexivity.
Qed.

(** X4.  From [mem_init] on, after every sequence of [mem_alloc] and
    [mem_free] calls, the chain is not empty, its first descriptor sits at
    the start of the pool, and every flag is 0 or 1. *)
Theorem chain_shape_after_run
    (fresh : Z) (garbage : list byte) (total : Z) (cs : list call) :
  0 < fresh -> 0 <= total -> fresh + total < size_t_modulus ->
  Forall call_ok cs ->
  let s := run cs (mem_init fresh garbage total) in
  memory_pool s = fresh /\
  (exists b rest, first_block s = b :: rest /\ ptr b = fresh) /\
  flags_ok (first_block s).
Proof.
  intros H1 H2 H3 Hcs s.
  assert (pool_inv total s) as Hinv
    by (apply run_inv; [exact Hcs | apply mem_init_inv; assumption]).
  assert (memory_pool s = fresh) as Hbase by apply run_memory_pool.
  destruct (run_shape cs (mem_init fresh garbage total)) as [Hne Hfl];
    [discriminate | apply Forall_cons; split; [simpl; auto | constructor] |].
  fold s in Hne, Hfl.
  split; [exact Hbase|]. split; [|exact Hfl].
  destruct (first_block s) as [|b rest] eqn:E; [contradiction|].
  exists b, rest. split; [reflexivity|].
  destruct Hinv as [_ _ _ H4]. rewrite E in H4. simpl in H4.
  destruct H4 as (Hp & _). lia.
Qed.

Lemma chain_shape_after_run_witness :
  let s := run [Alloc 16; Alloc 16; Free 1000; Alloc 40]
               (mem_init 1000 (zeros 64) 64) in
  memory_pool s = 1000 /\
  (exists b rest, first_block s = b :: rest /\ ptr b = 1000) /\
  flags_ok (first_block s).
Proof.
  apply (chain_shape_after_run 1000 (zeros 64) 64).
  - lia.
  - lia.
  - unfold size_t_modulus. lia.
  - repeat constructor; unfold size_t_modulus; simpl; lia.
Defined.

(** ** Allocation and release together *)

(** X5.  Allocating and at once freeing the pointer obtained gives the
    state back, when the descriptors of the chain had distinct addresses
    (and flags 0 or 1, as they always have). *)
Theorem mem_alloc_free_round_trip (total sz : Z) (s : mm_state) :
  pool_inv total s -> flags_ok (first_block s) ->
  distinct_addresses (first_block s) -> 0 <= sz ->
  fst (mem_alloc sz s) <> NULL ->
  mem_free (fst (mem_alloc sz s)) (snd (mem_alloc sz s)) = (tt, s).
Proof.
  intros Hinv Hfl Hnd Hsz Hok.
  destruct (mem_alloc_cases _ _ _ Hinv Hsz)
    as [(pre & m & post & Heq & Hpre & Hm & Hnn & Hres) | (Hno & Hres)];
    [|rewrite Hres in Hok; simpl in Hok; contradiction].
  rewrite Hres. simpl. unfold mem_free, no_lock_free. simpl.
  assert (Forall (fun x => ptr x <> ptr m) pre) as Hfresh.
  { unfold distinct_addresses in Hnd. rewrite Heq, fmap_app in Hnd.
    apply NoDup_app in Hnd as (_ & Hdis & _).
    apply Forall_forall. intros x Hx Heqp.
    apply (Hdis (ptr x)); [apply list_elem_of_fmap; eauto|].
    rewrite Heqp. simpl. left. }
  rewrite free_walk_split by (assumption || reflexivity). simpl.
  apply fits_true in Hm as (Hfree & Hle).
  assert (m ∈ first_block s) as Hmin
    by (rewrite Heq; apply elem_of_app; right; left).
  destruct Hinv as [H1 H2 H3 H4].
  destruct (contiguous_elem_of _ _ _ _ H4 Hmin) as (Ha & Hs & He).
  assert (free m = 1) as Hone.
  { unfold flags_ok in Hfl. rewrite Forall_forall in Hfl.
    destruct (Hfl m Hmin); [contradiction | assumption]. }
  rewrite wrap_small by lia.
  replace (sz + (size m - sz)) with (size m) by lia.
  destruct s as [base data chain]. simpl in *. subst chain.
  destruct m as [pm sm fm]. simpl in *. subst fm. reflexivity.
Qed.

Lemma mem_alloc_free_round_trip_witness :
  let s := run [Alloc 16; Alloc 16; Free 1000] (mem_init 1000 (zeros 64) 64) in
  mem_free (fst (mem_alloc 8 s)) (snd (mem_alloc 8 s)) = (tt, s).
Proof.
  intros s. apply (mem_alloc_free_round_trip 64 8 s).
  - concrete_pool_inv.
  - vm_compute. repeat (apply Forall_cons; split; [simpl; auto|]).
    apply Forall_nil. exact I.
  - unfold distinct_addresses.
    apply (bool_decide_unpack (NoDup (ptr <$> first_block s))).
    vm_compute. exact I.
  - lia.
  - vm_compute. discriminate.
Defined.

Lemma used_bytes_app (l1 l2 : list memory_block) :
  used_bytes (l1 ++ l2) = used_bytes l1 + used_bytes l2.
Proof.
  induction l1 as [|b l1 IH]; simpl; [reflexivity|]. rewrite IH. lia.
Qed.

(** X6.  A successful [mem_alloc] adds exactly the requested size to the
    bytes in use, a refused one adds nothing; the bytes in use never
    exceed the size of the pool. *)
Theorem mem_alloc_used_bytes (total sz : Z) (s : mm_state) :
  pool_inv total s -> 0 <= sz ->
  used_bytes (first_block (snd (mem_alloc sz s))) =
    used_bytes (first_block s)
    + (if fst (mem_alloc sz s) =? NULL then 0 else sz) /\
  0 <= used_bytes (first_block (snd (mem_alloc sz s))) <= total.
Proof.
  intros Hinv Hsz.
  assert (forall a e l, contiguous a l e -> 0 <= used_bytes l <= e - a)
    as Hbound.
  { intros a e l. revert a.
    induction l as [|b l IH]; simpl; intros a H; [lia|].
    destruct H as (_ & Hs & Hl). specialize (IH _ Hl).
    destruct (free b =? 0); lia. }
  split.
  - destruct (mem_alloc_cases _ _ _ Hinv Hsz)
      as [(pre & m & post & Heq & Hpre & Hm & Hnn & Hres) | (Hno & Hres)];
      rewrite Hres; simpl; [|lia].
    destruct (Z.eqb_spec (ptr m) NULL) as [E|_]; [contradiction|].
    apply fits_true in Hm as (Hfree & _).
    rewrite Heq, !used_bytes_app. simpl.
    destruct (Z.eqb_spec (free m) 0) as [E|_]; [contradiction|]. lia.
  - pose proof (mem_alloc_inv _ _ _ Hsz Hinv) as [_ _ _ H4].
    specialize (Hbound _ _ _ H4). lia.
Qed.

Lemma mem_alloc_used_bytes_witness :
  let s := run [Alloc 16; Alloc 16; Free 1000] (mem_init 1000 (zeros 64) 64) in
  used_bytes (first_block (snd (mem_alloc 8 s))) =
    used_bytes (first_block s) + (if fst (mem_alloc 8 s) =? NULL then 0 else 8) /\
  0 <= used_bytes (first_block (snd (mem_alloc 8 s))) <= 64.
Proof.
  intros s. apply (mem_alloc_used_bytes 64 8 s).
  - concrete_pool_inv.
  - lia.
Defined.

(** X7.  [mem_free] takes exactly the size of the descriptor it finds off
    the bytes in use when that descriptor was in use, and nothing when
    the descriptor was free already or no descriptor has the address. *)
Theorem mem_free_used_bytes (block : Z) (s : mm_state) :
  used_bytes (first_block (snd (mem_free block s))) =
    used_bytes (first_block s)
    - match find_block block (first_block s) with
      | Some b => if free b =? 0 then size b else 0
      | None => 0
      end.
Proof.
  unfold mem_free, no_lock_free. simpl.
  destruct (address_cases block (first_block s))
    as [Hno | (pre & b & rest & -> & Hpre & Hb)].
  - rewrite free_walk_absent, find_block_absent by exact Hno. lia.
  - rewrite free_walk_split, find_block_split by assumption.
    rewrite !used_bytes_app.
    destruct rest as [|next rest']; simpl; [lia|].
    destruct (Z.eqb_spec (free next) 1) as [E|_]; simpl; [|lia].
    rewrite E. simpl. lia.
Qed.

(** X8.  Freed memory can be allocated again: after [mem_free] of an
    address, a request for the size of the first descriptor of the chain
    with that address, the one [mem_free] releases, succeeds.  A block
    behind a zero-length descriptor with the same address is not that
    descriptor: for it the statement speaks of a request of 0 bytes. *)
Theorem mem_free_then_alloc_succeeds (total block : Z) (s : mm_state)
    (b : memory_block) :
  pool_inv total s ->
  find_block block (first_block s) = Some b ->
  fst (mem_alloc (size b) (snd (mem_free block s))) <> NULL.
Proof.
  intros Hinv Hfind.
  pose proof (mem_free_inv total block s Hinv) as Hinv'.
  destruct (find_block_Some _ _ _ Hfind) as [Hpb Hbin].
  pose proof Hinv as [H1 H2 H3 H4].
  destruct (contiguous_elem_of _ _ _ _ H4 Hbin) as (Ha & Hs & He).
  rewrite (mem_alloc_null_iff _ _ _ Hinv' Hs).
  unfold mem_free, no_lock_free. simpl.
  destruct (address_cases block (first_block s))
    as [Hno | (pre & b' & rest & Heq & Hpre & Hb')].
  - rewrite find_block_absent in Hfind by exact Hno. discriminate.
  - rewrite Heq in Hfind, H4 |- *.
    rewrite find_block_split in Hfind by assumption.
    injection Hfind as ->.
    rewrite free_walk_split by assumption.
    apply contiguous_app in H4 as (m0 & Hm & Hb4).
    simpl in Hb4. destruct Hb4 as (_ & _ & Hrest).
    pose proof (contiguous_le _ _ _ Hm).
    intros Hall. apply Forall_app in Hall as [_ Hall].
    destruct rest as [|next rest'].
    + apply Forall_cons in Hall as [Hfit _].
      assert (fits (size b) (Block (ptr b) (size b) 1) = true)
        by (apply fits_true; simpl; split; lia).
      congruence.
    + simpl in Hrest. destruct Hrest as (_ & Hsn & Hrest').
      pose proof (contiguous_le _ _ _ Hrest').
      destruct (free next =? 1); apply Forall_cons in Hall as [Hfit _].
      * assert (fits (size b)
                  (Block (ptr b) (wrap (size b + size next)) 1) = true)
          by (apply fits_true; simpl; rewrite wrap_small by lia;
              split; lia).
        congruence.
      * assert (fits (size b) (Block (ptr b) (size b) 1) = true)
          by (apply fits_true; simpl; split; lia).
        congruence.
Qed.

Lemma mem_free_then_alloc_succeeds_witness :
  let s := run [Alloc 16; Alloc 16] (mem_init 1000 (zeros 32) 32) in
  fst (mem_alloc (size (Block 1000 16 0)) (snd (mem_free 1000 s))) <> NULL.
Proof.
  intros s. apply (mem_free_then_alloc_succeeds 32 1000 s (Block 1000 16 0)).
  - concrete_pool_inv.
  - reflexivity.
Defined.

(** ** Release *)

(** The walk of [no_lock_free] on a chain that tiles the pool: no sum
    wraps around. *)
Lemma free_walk_found (a e block : Z) (pre : list memory_block)
    (b : memory_block) (rest : list memory_block) :
  0 <= a -> e < size_t_modulus ->
  contiguous a (pre ++ b :: rest) e ->
  Forall (fun x => ptr x <> block) pre -> ptr b = block ->
  free_walk block (pre ++ b :: rest) = pre ++ freed_block b rest.
Proof.
  intros Ha He H4 Hpre Hb.
  rewrite free_walk_split by assumption.
  apply contiguous_app in H4 as (m0 & Hm & Hb4).
  simpl in Hb4. destruct Hb4 as (_ & Hs & Hrest).
  pose proof (contiguous_le _ _ _ Hm).
  unfold freed_block.
  destruct rest as [|next rest']; [reflexivity|].
  simpl in Hrest. destruct Hrest as (_ & Hsn & Hrest').
  pose proof (contiguous_le _ _ _ Hrest').
  rewrite wrap_small by lia. reflexivity.
Qed.

(** X9.  [mem_free] of an address marks the first descriptor with that
    address free and merges it with its immediate successor when that one
    is free; the descriptors before it and the rest of the chain are left
    as they are, and so are the bytes of the pool. *)
Theorem mem_free_found (total block : Z) (s : mm_state)
    (pre : list memory_block) (b : memory_block)
    (rest : list memory_block) :
  pool_inv total s ->
  first_block s = pre ++ b :: rest ->
  Forall (fun x => ptr x <> block) pre -> ptr b = block ->
  mem_free block s =
    (tt, MM (memory_pool s) (pool_data s) (pre ++ freed_block b rest)).
Proof.
  intros [H1 H2 H3 H4] Heq Hpre Hb.
  unfold mem_free, no_lock_free. rewrite Heq in H4 |- *.
  assert (0 <= memory_pool s) as H0 by lia.
  rewrite (free_walk_found _ _ block pre b rest H0 H3 H4 Hpre Hb).
  reflexivity.
Qed.

Lemma mem_free_found_witness :
  let s := run [Alloc 16; Alloc 16; Free 1016] (mem_init 1000 (zeros 64) 64) in
  mem_free 1000 s = (tt, MM 1000 (zeros 64) [Block 1000 64 1]).
Proof.
  intros s.
  apply (mem_free_found 64 1000 s [] (Block 1000 16 0) [Block 1016 48 1]).
  - concrete_pool_inv.
  - reflexivity.
  - constructor.
  - reflexivity.
Defined.

(** X10.  Merging only looks forward.  Take two adjacent used blocks,
    the earlier one of non-zero size and at an address no earlier
    descriptor has.  When the earlier is freed first and the later one
    after it, the earlier descriptor keeps its own size and the two stay
    separate free descriptors; the later one takes in its own successor
    when that one is free. *)
Theorem free_earlier_then_later_stays_split (total : Z) (s : mm_state)
    (pre : list memory_block) (a b : memory_block)
    (post : list memory_block) :
  pool_inv total s ->
  first_block s = pre ++ a :: b :: post ->
  free a = 0 -> free b = 0 -> 0 < size a ->
  Forall (fun x => ptr x <> ptr a) pre ->
  first_block (run [Free (ptr a); Free (ptr b)] s) =
    pre ++ Block (ptr a) (size a) 1 :: freed_block b post.
Proof.
  intros Hinv Heq Hfa Hfb Hsa Hpre.
  pose proof (mem_free_inv total (ptr a) s Hinv) as [_ _ _ H4'].
  destruct Hinv as [H1 H2 H3 H4].
  assert (0 <= memory_pool s) as H0 by lia.
  change (first_block (run [Free (ptr a); Free (ptr b)] s))
    with (free_walk (ptr b) (free_walk (ptr a) (first_block s))).
  simpl in H4'. rewrite Heq in H4, H4' |- *.
  rewrite (free_walk_found _ _ (ptr a) pre a (b :: post) H0 H3 H4 Hpre eq_refl)
    in H4' |- *.
  unfold freed_block at 1 in H4'. unfold freed_block at 1.
  destruct (Z.eqb_spec (free b) 1) as [E|_]; [lia|].
  apply contiguous_app in H4 as (m0 & Hm & Hab).
  simpl in Hab. destruct Hab as (Hpa & _ & Hpb & _).
  assert (Forall (fun x => ptr x <> ptr b)
            (pre ++ [Block (ptr a) (size a) 1])) as Hpre'.
  { apply Forall_app. split.
    - apply Forall_forall. intros x Hx.
      destruct (contiguous_elem_of _ _ _ _ Hm Hx) as (_ & Hs & He). lia.
    - apply Forall_cons. split; [simpl; lia | constructor]. }
  replace (pre ++ Block (ptr a) (size a) 1 :: b :: post)
    with ((pre ++ [Block (ptr a) (size a) 1]) ++ b :: post) in H4' |- *
    by (rewrite <- app_assoc; reflexivity).
  rewrite (free_walk_found _ _ (ptr b) _ b post H0 H3 H4' Hpre' eq_refl).
  rewrite <- app_assoc. reflexivity.
Qed.

Lemma free_earlier_then_later_stays_split_witness :
  let s := run [Alloc 10; Alloc 10] (mem_init 1000 (zeros 20) 20) in
  first_block (run [Free 1000; Free 1010] s) =
    [Block 1000 10 1; Block 1010 10 1].
Proof.
  intros s.
  apply (free_earlier_then_later_stays_split 20 s []
           (Block 1000 10 0) (Block 1010 10 0) [Block 1020 0 1]).
  - concrete_pool_inv.
  - reflexivity.
  - reflexivity.
  - reflexivity.
  - simpl. lia.
  - constructor.
Defined.

(** ** Witnesses for the two growth paths of [mem_resize] *)

Lemma mem_resize_exhausted_witness :
  let s := run [Alloc 16] (mem_init 1000 (zeros 16) 16) in
  mem_resize 1000 32 s = Returns (NULL, s).
Proof.
  intros s. apply (mem_resize_exhausted 1000 32 s (Block 1000 16 0)).
  - reflexivity.
  - simpl. lia.
  - vm_compute. repeat constructor.
Defined.

Lemma mem_resize_grows_unaliased_witness :
  let s := run [Alloc 8] (mem_init 1000 (ramp 64) 64) in
  exists s' b',
    mem_resize 1000 16 s = Returns (fst (mem_alloc 16 s), s') /\
    take (Z.to_nat (size (Block 1000 8 0)))
         (drop (Z.to_nat (fst (mem_alloc 16 s) - memory_pool s))
               (pool_data s'))
    = take (Z.to_nat (size (Block 1000 8 0)))
           (drop (Z.to_nat (1000 - memory_pool s)) (pool_data s)) /\
    find_block 1000 (first_block s') = Some b' /\ free b' = 1.
Proof.
  intros s.
  apply (mem_resize_grows_unaliased 64 1000 16 s (Block 1000 8 0) []
           [Block 1008 16 0; Block 1024 40 1]).
  - concrete_pool_inv.
  - vm_compute. reflexivity.
  - lia.
  - reflexivity.
  - simpl. lia.
  - vm_compute. discriminate.
  - reflexivity.
  - constructor.
Defined.

End MemoryManagerFacts.

(** * Properties of the list *)

Module LinkedListFacts.
Import LinkedList.

(** ** The chain of a well-formed list is short enough for the loops *)

Lemma list_repr_det (h : gmap Z Node) (a : Z) (l1 l2 : list (Z * Node)) :
  list_repr h a l1 -> list_repr h a l2 -> l1 = l2.
Proof.
  revert a l2. induction l1 as [|[a1 n1] l1 IH]; intros a l2 H1 H2.
  - destruct l2 as [|[a2 n2] l2]; [reflexivity|].
    simpl in H1, H2. destruct H2 as (_ & Hnn & _). contradiction.
  - destruct l2 as [|[a2 n2] l2]; simpl in H1, H2.
    + destruct H1 as (_ & Hnn & _). contradiction.
    + destruct H1 as (<- & _ & Hn1 & Hl1).
      destruct H2 as (<- & _ & Hn2 & Hl2).
      assert (n1 = n2) as <- by congruence.
      f_equal. exact (IH _ _ Hl1 Hl2).
Qed.

Lemma list_repr_suffix (h : gmap Z Node) (a : Z) (l1 : list (Z * Node))
    (x : Z * Node) (l2 : list (Z * Node)) :
  list_repr h a (l1 ++ x :: l2) -> list_repr h (fst x) (x :: l2).
Proof.
  revert a. induction l1 as [|[a1 n1] l1 IH]; intros a H.
  - destruct x as [ax nx]. simpl in *. destruct H as (-> & H). tauto.
  - simpl in H. destruct H as (_ & _ & _ & H). exact (IH _ H).
Qed.

Lemma list_repr_NoDup (h : gmap Z Node) (a : Z) (l : list (Z * Node)) :
  list_repr h a l -> NoDup (l.*1).
Proof.
  revert a. induction l as [|[a1 n1] l IH]; intros a H.
  - constructor.
  - pose proof H as H'. simpl in H. destruct H as (-> & _ & _ & Hl).
    simpl. constructor; [|exact (IH _ Hl)].
    intros Hin. apply list_elem_of_fmap in Hin as (y & Hy & Hyl).
    apply list_elem_of_split in Hyl as (k1 & k2 & ->).
    apply list_repr_suffix in Hl. rewrite <- Hy in Hl.
    pose proof (list_repr_det _ _ _ _ H' Hl) as Heq.
    apply (f_equal length) in Heq. simpl in Heq.
    rewrite length_app in Heq. simpl in Heq. lia.
Qed.

Lemma list_repr_dom (h : gmap Z Node) (a : Z) (l : list (Z * Node)) :
  list_repr h a l -> forall x, x ∈ l.*1 -> x ∈ dom h.
Proof.
  revert a. induction l as [|[a1 n1] l IH]; intros a H x Hx.
  - inversion Hx.
  - simpl in H. destruct H as (-> & _ & Hn & Hl).
    simpl in Hx. apply elem_of_cons in Hx as [->|Hx].
    + apply elem_of_dom. eauto.
    + exact (IH _ Hl _ Hx).
Qed.

Lemma list_repr_length (h : gmap Z Node) (a : Z) (l : list (Z * Node)) :
  list_repr h a l -> (length l <= size h)%nat.
Proof.
  intros H.
  rewrite <- (length_fmap fst l).
  rewrite <- (size_list_to_set (C:=gset Z)) by exact (list_repr_NoDup _ _ _ H).
  rewrite <- (size_dom (D:=gset Z) h).
  apply subseteq_size. intros x Hx.
  apply elem_of_list_to_set in Hx. exact (list_repr_dom _ _ _ H _ Hx).
Qed.

(** ** Searching *)

Lemma search_loop_first_match (st : list_state) (d : Z)
    (l : list (Z * Node)) (a : Z) (fuel : nat) :
  list_repr (heap st) a l -> (length l < fuel)%nat ->
  search_loop fuel a d st = Returns (fst <$> first_match d l, st).
Proof.
  revert a fuel. induction l as [|[a1 n1] l IH]; intros a fuel H Hfuel.
  - simpl in H. subst a. destruct fuel as [|fuel]; [simpl in Hfuel; lia|].
    reflexivity.
  - simpl in H. destruct H as (-> & Hnn & Hn & Hl).
    destruct fuel as [|fuel]; [simpl in Hfuel; lia|].
    simpl in Hfuel. simpl search_loop.
    destruct (Z.eqb_spec a1 NULL) as [E|_]; [contradiction|].
    unfold mbind, M_bind, load_node.
    destruct (Z.eqb_spec a1 NULL) as [E|_]; [contradiction|].
    rewrite Hn. unfold first_match. simpl.
    destruct (data n1 =? d); [reflexivity|].
    apply IH; [exact Hl | lia].
Qed.

(** C9 (as the code has it).  On a well-formed list [list_search]
    returns the first node, head to tail, whose payload equals the value,
    printing nothing and changing nothing; when no node matches it returns
    the null pointer, changes nothing in the list or the pool, and prints
    "data not in list". *)
Theorem list_search_first_match (st : list_state) (head d : Z)
    (l : list (Z * Node)) :
  list_repr (heap st) head l ->
  list_search head d st =
    match first_match d l with
    | Some (a, _) => Returns (a, st)
    | None =>
        Returns (NULL,
                 LS (mm st) (heap st) (console st ++ ["data not in list"]))
    end.
Proof.
  intros H. unfold list_search, loop_fuel, mbind, M_bind.
  rewrite (search_loop_first_match st d l head) by
    (try exact H; pose proof (list_repr_length _ _ _ H); lia).
  destruct (first_match d l) as [[a n]|]; reflexivity.
Qed.

(** Runs the inserts that build the list of a concrete statement. *)
Ltac run_inserts :=
  match goal with
  | |- match ?r with _ => _ end =>
      let E := fresh "E" in
      destruct r as [[? ?]| |] eqn:E; vm_compute in E; try discriminate E;
      injection E as <- <-
  end.

Lemma list_search_first_match_witness :
  match insert_all 16 [1; 2; 3] NULL empty_list_64 with
  | Returns (head, st) =>
      list_repr (heap st) head
        [(1000, mkNode 1 1016); (1016, mkNode 2 1032); (1032, mkNode 3 NULL)]
      /\ list_search head 2 st = Returns (1016, st)
  | _ => False
  end.
Proof.
  run_inserts.
  match goal with |- ?R /\ _ => assert R as Hrepr end.
  { unfold list_repr. repeat split; try discriminate; vm_compute; reflexivity. }
  split; [exact Hrepr|].
  exact (list_search_first_match _ _ 2 _ Hrepr).
Defined.

(** C9 (as stated) fails: searching the list 1, 2, 3 for 9 prints. *)
Lemma list_search_prints_when_absent :
  match insert_all 16 [1; 2; 3] NULL empty_list_64 with
  | Returns (head, st) =>
      list_search head 9 st =
        Returns (NULL,
                 LS (mm st) (heap st) (console st ++ ["data not in list"])) /\
      console st ++ ["data not in list"] <> console st
  | _ => False
  end.
Proof.
  run_inserts.
  split; [vm_compute; reflexivity | vm_compute; discriminate].
Qed.

(** ** Inserting *)

(** C3 (the code faults).  When no descriptor of the pool can hold a
    node, [mem_alloc] returns the null pointer and [list_insert] writes
    [node->data] through it. *)
Theorem list_insert_exhausted_faults (sizeof_Node head d : Z)
    (st : list_state) :
  Forall (fun x => MemoryManager.fits sizeof_Node x = false)
         (MemoryManager.first_block (mm st)) ->
  list_insert sizeof_Node head d st = Fault.
Proof.
  intros Hno.
  unfold list_insert, mbind, M_bind, call_mem_alloc.
  unfold MemoryManager.mem_alloc, MemoryManager.no_lock_alloc.
  rewrite MemoryManagerFacts.alloc_walk_none by exact Hno.
  reflexivity.
Qed.

Lemma list_insert_exhausted_faults_witness :
  match insert_all 16 [1; 2; 3; 4] NULL empty_list_64 with
  | Returns (head, st) => list_insert 16 head 5 st = Fault
  | _ => False
  end.
Proof.
  run_inserts.
  apply list_insert_exhausted_faults.
  vm_compute. repeat constructor.
Defined.

(** The invariant of the list that one insert into the empty list over
    [empty_list_64] leaves. *)
Ltac one_node_list_inv :=
  split; [|split];
  [ constructor; simpl; unfold size_t_modulus; try lia
  | unfold list_repr; repeat split; try discriminate; vm_compute; reflexivity
  | let a := fresh "a" in let Ha := fresh "Ha" in
    intros a Ha; apply list_elem_of_singleton in Ha; subst a;
    exists (MemoryManager.Block 1000 16 0); simpl;
    split; [left | split; [reflexivity | split; [reflexivity | lia]]] ].

(** ** Segments of the chain and writes to the heap *)

(** Unfolds the monad of the list operations. *)
Ltac munfold := unfold mbind, M_bind, mret, M_ret in *.

Lemma list_repr_lseg (h : gmap Z Node) (a : Z) (l : list (Z * Node)) :
  list_repr h a l <-> lseg h a l NULL.
Proof.
  revert a. induction l as [|[a1 n1] l IH]; intros a; simpl; [reflexivity|].
  rewrite IH. reflexivity.
Qed.

Lemma lseg_app (h : gmap Z Node) (a z : Z) (l1 l2 : list (Z * Node)) :
  lseg h a (l1 ++ l2) z <-> exists m, lseg h a l1 m /\ lseg h m l2 z.
Proof.
  revert a. induction l1 as [|[a1 n1] l1 IH]; intros a; simpl.
  - split.
    + intros H. exists a. split; [reflexivity | exact H].
    + intros (m & -> & H). exact H.
  - rewrite IH. split.
    + intros (Ha & Hn & Hl & m & H1 & H2). exists m. tauto.
    + intros (m & (Ha & Hn & Hl & H1) & H2). repeat split; try assumption.
      exists m. tauto.
Qed.

Lemma lseg_insert_ne (h : gmap Z Node) (a z k : Z) (n : Node)
    (l : list (Z * Node)) :
  k ∉ l.*1 -> lseg h a l z -> lseg (<[k := n]> h) a l z.
Proof.
  revert a. induction l as [|[a1 n1] l IH]; intros a Hk H; [exact H|].
  simpl in Hk, H |- *. apply not_elem_of_cons in Hk as [Hk1 Hk2].
  destruct H as (-> & Hnn & Hl & Hrest).
  repeat split; try assumption.
  - rewrite lookup_insert_ne by congruence. exact Hl.
  - exact (IH _ Hk2 Hrest).
Qed.

Lemma lseg_start_nonnull (h : gmap Z Node) (a z : Z) (l : list (Z * Node)) :
  lseg h a l z -> z <> NULL -> a <> NULL.
Proof.
  destruct l as [|[a1 n1] l]; simpl.
  - intros -> Hz. exact Hz.
  - intros (_ & Hnn & _) _. exact Hnn.
Qed.

Lemma list_repr_NULL (h : gmap Z Node) (l : list (Z * Node)) :
  list_repr h NULL l -> l = [].
Proof.
  destruct l as [|[a1 n1] l]; [reflexivity|].
  simpl. intros (_ & Hnn & _). contradiction.
Qed.

Lemma list_repr_nonnull (h : gmap Z Node) (a : Z) (l : list (Z * Node)) :
  list_repr h a l -> a <> NULL -> l <> [].
Proof. intros H Ha ->. simpl in H. contradiction. Qed.

Lemma values_app (l1 l2 : list (Z * Node)) :
  values (l1 ++ l2) = values l1 ++ values l2.
Proof. unfold values. apply fmap_app. Qed.

(** ** The allocator under the list *)

Lemma used_block_kept_by_alloc (sz : Z) (m : MemoryManager.mm_state)
    (b : MemoryManager.memory_block) :
  b ∈ MemoryManager.first_block m -> MemoryManager.free b = 0 ->
  b ∈ MemoryManager.first_block (snd (MemoryManager.mem_alloc sz m)).
Proof.
  intros Hb Hused.
  unfold MemoryManager.mem_alloc, MemoryManager.no_lock_alloc.
  pose proof (MemoryManagerFacts.alloc_walk_keeps_small sz
                (MemoryManager.first_block m) b Hb) as Hkeep.
  destruct (MemoryManager.alloc_walk sz (MemoryManager.first_block m)).
  simpl in *. apply Hkeep.
  unfold MemoryManager.fits. rewrite Hused. reflexivity.
Qed.

Lemma used_block_kept_by_free (block : Z) (m : MemoryManager.mm_state)
    (b : MemoryManager.memory_block) :
  b ∈ MemoryManager.first_block m -> MemoryManager.free b = 0 ->
  MemoryManager.ptr b <> block ->
  b ∈ MemoryManager.first_block (snd (MemoryManager.mem_free block m)).
Proof.
  intros Hb Hused Hne.
  unfold MemoryManager.mem_free, MemoryManager.no_lock_free. simpl.
  destruct (MemoryManagerFacts.address_cases block
              (MemoryManager.first_block m))
    as [Hno | (pre & x & rest & Heq & Hpre & Hx)].
  - rewrite MemoryManagerFacts.free_walk_absent by exact Hno. exact Hb.
  - rewrite Heq in Hb |- *.
    rewrite MemoryManagerFacts.free_walk_split by assumption.
    apply elem_of_app in Hb as [Hb|Hb]; [apply elem_of_app; left; exact Hb|].
    apply elem_of_cons in Hb as [->|Hb]; [contradiction|].
    apply elem_of_app. right.
    destruct rest as [|nx rest']; [inversion Hb|].
    destruct (Z.eqb_spec (MemoryManager.free nx) 1) as [E|_].
    + apply elem_of_cons in Hb as [->|Hb]; [lia|]. right. exact Hb.
    + right. exact Hb.
Qed.

Lemma alloc_fresh_for_list (total sz : Z) (st : list_state)
    (l : list (Z * Node)) :
  MemoryManager.pool_inv total (mm st) -> 0 < sz -> nodes_live st l ->
  fst (MemoryManager.mem_alloc sz (mm st)) <> NULL ->
  fst (MemoryManager.mem_alloc sz (mm st)) ∉ l.*1.
Proof.
  intros Hpool Hsz Hlive Hok Hin.
  destruct (Hlive _ Hin) as (b & Hb & Hpb & Hfb & Hsb).
  assert (0 <= sz) as Hsz0 by lia.
  destruct (MemoryManagerFacts.mem_alloc_match_disjoint total sz (mm st) b
              Hpool Hsz0 Hok Hb Hfb); lia.
Qed.

Lemma alloc_block_in_chain (total sz : Z) (m : MemoryManager.mm_state) :
  MemoryManager.pool_inv total m -> 0 <= sz ->
  fst (MemoryManager.mem_alloc sz m) <> NULL ->
  MemoryManager.Block (fst (MemoryManager.mem_alloc sz m)) sz 0
    ∈ MemoryManager.first_block (snd (MemoryManager.mem_alloc sz m)).
Proof.
  intros Hpool Hsz Hok.
  destruct (MemoryManagerFacts.mem_alloc_cases _ _ _ Hpool Hsz)
    as [(pre & x & post & Heq & Hpre & Hx & Hnn & Hres) | (Hno & Hres)];
    rewrite Hres in Hok |- *; simpl in *; [|contradiction].
  apply elem_of_app. right. left.
Qed.

(** ** Appending *)

Lemma last_node_spec (st : list_state) (l0 : list (Z * Node)) (a b : Z)
    (nb : Node) (fuel : nat) :
  lseg (heap st) a l0 b -> b <> NULL -> heap st !! b = Some nb ->
  next nb = NULL -> (length l0 < fuel)%nat ->
  last_node fuel a st = Returns (b, st).
Proof.
  revert a fuel. induction l0 as [|[a1 n1] l0 IH]; intros a fuel H Hb Hnb Hnx Hf.
  - simpl in H. subst a. destruct fuel as [|fuel]; [simpl in Hf; lia|].
    simpl. unfold mbind, M_bind, load_node.
    destruct (Z.eqb_spec b NULL) as [E|_]; [contradiction|].
    rewrite Hnb, Hnx. reflexivity.
  - simpl in H. destruct H as (-> & Hnn & Hn1 & Hrest).
    destruct fuel as [|fuel]; [simpl in Hf; lia|]. simpl in Hf.
    simpl. unfold mbind, M_bind, load_node.
    destruct (Z.eqb_spec a1 NULL) as [E|_]; [contradiction|].
    rewrite Hn1.
    pose proof (lseg_start_nonnull _ _ _ _ Hrest Hb) as Hnext.
    destruct (Z.eqb_spec (next n1) NULL) as [E|_]; [contradiction|].
    apply IH; [assumption .. | lia].
Qed.

#[local] Arguments last_node : simpl never.
#[local] Arguments loop_fuel : simpl never.

(** What a [list_insert] whose allocation succeeds does to a well-formed
    list over the pool, with the address of the new node and the state of
    the allocator. *)
Lemma list_insert_spec (total sizeof_Node head d : Z)
    (st : list_state) (l : list (Z * Node)) :
  0 < sizeof_Node ->
  list_inv total st head l ->
  fst (MemoryManager.mem_alloc sizeof_Node (mm st)) <> NULL ->
  exists head' st' l',
    list_insert sizeof_Node head d st = Returns (head', st') /\
    list_inv total st' head' l' /\
    values l' = values l ++ [d] /\
    l'.*1 = l.*1 ++ [fst (MemoryManager.mem_alloc sizeof_Node (mm st))] /\
    (head' = if head =? NULL
             then fst (MemoryManager.mem_alloc sizeof_Node (mm st))
             else head) /\
    mm st' = snd (MemoryManager.mem_alloc sizeof_Node (mm st)) /\
    console st' = console st.
Proof.
  intros Hsz (Hpool & Hrepr & Hlive) Hok.
  pose proof (alloc_fresh_for_list _ _ _ _ Hpool Hsz Hlive Hok) as Hfresh.
  assert (0 <= sizeof_Node) as Hsz0 by lia.
  pose proof (MemoryManagerFacts.mem_alloc_inv total sizeof_Node (mm st)
                Hsz0 Hpool) as Hpool1.
  pose proof (alloc_block_in_chain _ _ _ Hpool Hsz0 Hok) as Hnew.
  assert (forall b, b ∈ MemoryManager.first_block (mm st) ->
                    MemoryManager.free b = 0 ->
                    b ∈ MemoryManager.first_block
                          (snd (MemoryManager.mem_alloc sizeof_Node (mm st))))
    as Hkeep by (intros; apply used_block_kept_by_alloc; assumption).
  unfold list_insert, mbind, M_bind, call_mem_alloc.
  destruct (MemoryManager.mem_alloc sizeof_Node (mm st)) as [p m1].
  simpl in Hok, Hfresh, Hpool1, Hnew, Hkeep |- *.
  unfold init_node, store_node.
  destruct (Z.eqb_spec p NULL) as [E|_]; [contradiction|].
  assert (forall l' : list (Z * Node),
            (forall a, a ∈ l'.*1 -> a ∈ l.*1 \/ a = p) ->
            forall h c, nodes_live (LS m1 h c) l') as Hlive1.
  { intros l' Hsub h c a Ha. simpl.
    destruct (Hsub a Ha) as [Hold | ->].
    - destruct (Hlive a Hold) as (b & Hb & Hpb & Hfb & Hsb).
      exists b. repeat split; auto.
    - exists (MemoryManager.Block p sizeof_Node 0). repeat split; auto. }
  destruct (Z.eqb_spec head NULL) as [Hhead|Hhead].
  - subst head. apply list_repr_NULL in Hrepr. subst l.
    exists p, (LS m1 (<[p := mkNode d NULL]> (heap st)) (console st)),
      [(p, mkNode d NULL)].
    split; [reflexivity|]. split; [|repeat split].
    split; [exact Hpool1|]. split.
    + simpl. repeat split; [assumption|]. apply lookup_insert_eq.
    + apply Hlive1. simpl. intros a Ha.
      apply list_elem_of_singleton in Ha. right. exact Ha.
  - pose proof (list_repr_nonnull _ _ _ Hrepr Hhead) as Hne.
    destruct (exists_last Hne) as (l0 & [b nb] & ->).
    pose proof (list_repr_NoDup _ _ _ Hrepr) as Hnd.
    rewrite fmap_app in Hnd, Hfresh. simpl in Hnd, Hfresh.
    apply NoDup_app in Hnd as (_ & Hdis & _).
    apply not_elem_of_app in Hfresh as [Hfresh0 Hfreshb].
    apply not_elem_of_cons in Hfreshb as [Hpb _].
    assert (b ∉ l0.*1) as Hb0.
    { intros Hin. apply (Hdis _ Hin). left. }
    apply list_repr_lseg, lseg_app in Hrepr as (m & Hl0 & Hlast).
    simpl in Hlast. destruct Hlast as (-> & Hbn & Hnb & Hnx).
    set (h1 := <[p := mkNode d NULL]> (heap st)).
    assert (lseg h1 head l0 b) as Hl1 by (apply lseg_insert_ne; assumption).
    assert (h1 !! b = Some nb) as Hnb1
      by (unfold h1; rewrite lookup_insert_ne by congruence; exact Hnb).
    unfold loop_fuel. cbn [heap].
    assert (length l0 < S (size h1))%nat as Hfuel.
    { assert (list_repr h1 head (l0 ++ [(b, nb)])) as Hr1.
      { apply list_repr_lseg, lseg_app. exists b. split; [exact Hl1|].
        simpl. repeat split; assumption. }
      apply list_repr_length in Hr1. rewrite length_app in Hr1.
      simpl in Hr1. lia. }
    rewrite (last_node_spec (LS m1 h1 (console st)) l0 head b nb)
      by assumption.
    unfold set_next, mbind, M_bind, load_node, store_node. simpl.
    destruct (Z.eqb_spec b NULL) as [E|_]; [contradiction|].
    rewrite Hnb1.
    exists head,
      (LS m1 (<[b := mkNode (data nb) p]> h1) (console st)),
      (l0 ++ [(b, mkNode (data nb) p); (p, mkNode d NULL)]).
    split; [reflexivity|]. split; [|repeat split].
    + split; [exact Hpool1|]. split.
      * simpl. apply list_repr_lseg, lseg_app. exists b. split.
        -- apply lseg_insert_ne; assumption.
        -- simpl. repeat split; try assumption.
           ++ apply lookup_insert_eq.
           ++ rewrite lookup_insert_ne by congruence. apply lookup_insert_eq.
      * apply Hlive1. intros a Ha. rewrite !fmap_app in Ha |- *. simpl in *.
        apply elem_of_app in Ha as [Ha|Ha].
        -- left. apply elem_of_app. left. exact Ha.
        -- apply elem_of_cons in Ha as [->|Ha].
           ++ left. apply elem_of_app. right. left.
           ++ apply list_elem_of_singleton in Ha. right. exact Ha.
    + rewrite !values_app. simpl. rewrite <- app_assoc. reflexivity.
    + rewrite !fmap_app. simpl. rewrite <- app_assoc. reflexivity.
Qed.

(** X11.  On a well-formed list whose nodes lie in used blocks of the
    pool, a [list_insert] whose allocation succeeds returns, appends one
    node with the value at the end of the list (the new node is the head
    when the list was empty), prints nothing, and leaves a well-formed
    list. *)
Theorem list_insert_appends (total sizeof_Node head d : Z)
    (st : list_state) (l : list (Z * Node)) :
  0 < sizeof_Node ->
  list_inv total st head l ->
  fst (MemoryManager.mem_alloc sizeof_Node (mm st)) <> NULL ->
  exists head' st' l',
    list_insert sizeof_Node head d st = Returns (head', st') /\
    list_inv total st' head' l' /\
    values l' = values l ++ [d] /\
    (head' = if head =? NULL
             then fst (MemoryManager.mem_alloc sizeof_Node (mm st))
             else head) /\
    console st' = console st.
Proof.
  intros Hsz Hinv Hok.
  destruct (list_insert_spec total sizeof_Node head d st l Hsz Hinv Hok)
    as (head' & st' & l' & Hrun & Hinv' & Hval & _ & Hhead & _ & Hcon).
  exists head', st', l'.
  split; [exact Hrun|]. split; [exact Hinv'|]. split; [exact Hval|].
  split; [exact Hhead | exact Hcon].
Qed.

Lemma list_insert_appends_witness :
  match insert_all 16 [1] NULL empty_list_64 with
  | Returns (head, st) =>
      exists head' st' l',
        list_insert 16 head 7 st = Returns (head', st') /\
        list_inv 64 st' head' l' /\
        values l' = values [(1000, mkNode 1 NULL)] ++ [7] /\
        (head' = if head =? NULL
                 then fst (MemoryManager.mem_alloc 16 (mm st))
                 else head) /\
        console st' = console st
  | _ => False
  end.
Proof.
  run_inserts.
  apply (list_insert_appends 64 16 1000 7 _ [(1000, mkNode 1 NULL)]).
  - lia.
  - one_node_list_inv.
  - vm_compute. discriminate.
Defined.

(** ** Counting *)

Lemma count_loop_spec (st : list_state) (l : list (Z * Node)) (a i : Z)
    (fuel : nat) :
  list_repr (heap st) a l -> 0 <= i -> i + Z.of_nat (length l) < 2 ^ 31 ->
  (length l < fuel)%nat ->
  count_loop fuel a i st = Returns (i + Z.of_nat (length l), st).
Proof.
  revert a i fuel. induction l as [|[a1 n1] l IH]; intros a i fuel H Hi Hb Hf.
  - simpl in H. subst a. destruct fuel as [|fuel]; [simpl in Hf; lia|].
    simpl. unfold mret, M_ret. do 2 f_equal. lia.
  - simpl in H. destruct H as (-> & Hnn & Hn1 & Hrest).
    destruct fuel as [|fuel]; [simpl in Hf; lia|].
    simpl length in Hb, Hf |- *. simpl count_loop.
    destruct (Z.eqb_spec a1 NULL) as [E|_]; [contradiction|].
    unfold mbind, M_bind, load_node.
    destruct (Z.eqb_spec a1 NULL) as [E|_]; [contradiction|].
    rewrite Hn1.
    assert (int_wrap (i + 1) = i + 1) as ->.
    { unfold int_wrap. rewrite Z.mod_small; lia. }
    rewrite IH by (assumption || lia). do 2 f_equal. lia.
Qed.

(** X12.  On a well-formed list of fewer than 2^31 nodes,
    [list_count_nodes] returns the number of nodes and changes nothing. *)
Theorem list_count_nodes_length (st : list_state) (head : Z)
    (l : list (Z * Node)) :
  list_repr (heap st) head l -> Z.of_nat (length l) < 2 ^ 31 ->
  list_count_nodes head st = Returns (Z.of_nat (length l), st).
Proof.
  intros H Hb. unfold list_count_nodes, loop_fuel, mbind, M_bind.
  rewrite (count_loop_spec st l head 0); try assumption; try lia.
  - reflexivity.
  - pose proof (list_repr_length _ _ _ H). lia.
Qed.

Lemma list_count_nodes_length_witness :
  match insert_all 16 [1; 2; 3] NULL empty_list_64 with
  | Returns (head, st) => list_count_nodes head st = Returns (3, st)
  | _ => False
  end.
Proof.
  run_inserts.
  apply (list_count_nodes_length _ _
           [(1000, mkNode 1 1016); (1016, mkNode 2 1032);
            (1032, mkNode 3 NULL)]).
  - unfold list_repr. repeat split; try discriminate; vm_compute; reflexivity.
  - simpl. lia.
Defined.

(** ** A run of inserts into a fresh pool *)





(** ** Displaying *)

Lemma string_app_assoc (s1 s2 s3 : string) :
  (s1 +:+ s2) +:+ s3 = s1 +:+ (s2 +:+ s3).
Proof.
  induction s1 as [|c s1 IH]; [reflexivity|].
  change (String c ((s1 +:+ s2) +:+ s3) = String c (s1 +:+ (s2 +:+ s3))).
  rewrite IH. reflexivity.
Qed.

Lemma printed_display_chunks (vs : list Z) (v : Z) :
  printed (display_chunks vs v ++ ["]"]) =
    String.concat ", " (pretty <$> (vs ++ [v])) +:+ "]".
Proof.
  induction vs as [|x vs IH]; [reflexivity|].
  change (printed (display_chunks (x :: vs) v ++ ["]"]))
    with (pretty x +:+ ", " +:+ printed (display_chunks vs v ++ ["]"])).
  rewrite IH.
  assert (exists y ys, pretty <$> (vs ++ [v]) = y :: ys) as (y & ys & Hy)
    by (destruct vs; simpl; eauto).
  change (pretty <$> ((x :: vs) ++ [v]))
    with (pretty x :: (pretty <$> (vs ++ [v]))).
  rewrite Hy.
  change (String.concat ", " (pretty x :: y :: ys))
    with (pretty x +:+ ", " +:+ String.concat ", " (y :: ys)).
  rewrite !string_app_assoc. reflexivity.
Qed.

Lemma lseg_addr_nonnull (h : gmap Z Node) (a z : Z) (l : list (Z * Node)) :
  lseg h a l z -> NULL ∉ l.*1.
Proof.
  revert a. induction l as [|[a1 n1] l IH]; intros a H Hin.
  - inversion Hin.
  - simpl in H, Hin. destruct H as (-> & Hnn & _ & Hrest).
    apply elem_of_cons in Hin as [E|Hin]; [congruence|].
    exact (IH _ Hrest Hin).
Qed.

Lemma display_loop_S (fuel : nat) (start_node end_node : Z) :
  display_loop (S fuel) start_node end_node =
    if start_node =? end_node then mret start_node
    else
      n ← load_node start_node;
      _ ← printf_d (data n);
      if next n =? NULL then mret start_node
      else _ ← printf ", "; display_loop fuel (next n) end_node.
Proof. reflexivity. Qed.

(** The loop over a stretch of the chain that does not hold the end
    node: every payload is printed with a comma after it. *)
Lemma display_loop_prefix (l1 : list (Z * Node)) :
  forall (a z e : Z) (f : nat) (st : list_state),
  lseg (heap st) a l1 z -> z <> NULL -> e ∉ l1.*1 ->
  display_loop (length l1 + f) a e st =
    display_loop f z e
      (LS (mm st) (heap st)
          (console st ++ flat_map (fun x => [pretty x; ", "]) (values l1))).
Proof.
  induction l1 as [|[a1 n1] l1 IH]; intros a z e f st H Hz He.
  - simpl in H. subst a. simpl. rewrite app_nil_r. destruct st; reflexivity.
  - simpl in H. destruct H as (-> & Hnn & Hn1 & Hrest).
    simpl in He. apply not_elem_of_cons in He as [He1 He2].
    pose proof (lseg_start_nonnull _ _ _ _ Hrest Hz) as Hnext.
    change (length ((a1, n1) :: l1) + f)%nat with (S (length l1 + f)).
    rewrite display_loop_S.
    destruct (Z.eqb_spec a1 e) as [E|_]; [congruence|].
    unfold mbind, M_bind, load_node, printf_d, printf.
    destruct (Z.eqb_spec a1 NULL) as [E|_]; [contradiction|].
    rewrite Hn1. cbn [mm heap console].
    destruct (Z.eqb_spec (next n1) NULL) as [E|_]; [contradiction|].
    rewrite (IH (next n1) z e f) by assumption.
    cbn [mm heap console values fmap list_fmap flat_map snd].
    rewrite <- !app_assoc. reflexivity.
Qed.

Lemma loop_fuel_split (h : gmap Z Node) (s : Z) (l1 : list (Z * Node))
    (x : Z * Node) (l2 : list (Z * Node)) :
  list_repr h s (l1 ++ x :: l2) ->
  S (size h) = (length l1 + S (size h - length l1))%nat.
Proof.
  intros H. apply list_repr_length in H.
  rewrite length_app in H. simpl in H. lia.
Qed.

(** The loop from a node to the tail, when the end node is not on the
    way: it stops by the [break] at the last node. *)
Lemma display_loop_to_tail (st : list_state) (a e : Z)
    (l1 : list (Z * Node)) (b : Z) (nb : Node) :
  list_repr (heap st) a (l1 ++ [(b, nb)]) ->
  e ∉ (l1 ++ [(b, nb)]).*1 ->
  display_loop (S (size (heap st))) a e st =
    Returns (b, LS (mm st) (heap st)
                   (console st ++ display_chunks (values l1) (data nb))).
Proof.
  intros Hrepr Hend.
  rewrite (loop_fuel_split _ _ _ _ _ Hrepr).
  apply list_repr_lseg, lseg_app in Hrepr as (m & Hl1 & Hlast).
  simpl in Hlast. destruct Hlast as (-> & Hbn & Hnb & Hnx).
  rewrite fmap_app in Hend. apply not_elem_of_app in Hend as [He1 He2].
  simpl in He2. apply not_elem_of_cons in He2 as [Heb _].
  rewrite (display_loop_prefix l1 _ b e) by assumption.
  rewrite display_loop_S.
  destruct (Z.eqb_spec b e) as [E|_]; [congruence|].
  unfold mbind, M_bind, load_node, printf_d, printf. cbn [mm heap console].
  destruct (Z.eqb_spec b NULL) as [E|_]; [contradiction|].
  rewrite Hnb, Hnx. cbn [Z.eqb NULL].
  unfold mret, M_ret, display_chunks. cbn [mm heap console].
  rewrite <- !app_assoc. reflexivity.
Qed.

Lemma printed_brackets (vs : list Z) (v : Z) :
  printed ("[" :: display_chunks vs v ++ ["]"]) =
    "[" +:+ String.concat ", " (pretty <$> (vs ++ [v])) +:+ "]".
Proof.
  change (printed ("[" :: display_chunks vs v ++ ["]"]))
    with ("[" +:+ printed (display_chunks vs v ++ ["]"])).
  rewrite printed_display_chunks. reflexivity.
Qed.

(** X14.  When the end node is not on the chain from the start node (for
    instance [NULL]), [list_display_range] prints every payload from the
    start node to the tail, separated by commas, between brackets, and
    changes nothing else; with a null start node it starts at the head. *)
Theorem list_display_range_to_tail (st : list_state)
    (head start_node end_node : Z) (l1 : list (Z * Node)) (b : Z)
    (nb : Node) :
  list_repr (heap st) (if start_node =? NULL then head else start_node)
            (l1 ++ [(b, nb)]) ->
  end_node ∉ (l1 ++ [(b, nb)]).*1 ->
  list_display_range head start_node end_node st =
    Returns (tt, LS (mm st) (heap st)
                    (console st
                     ++ "[" :: display_chunks (values l1) (data nb) ++ ["]"]))
  /\ printed ("[" :: display_chunks (values l1) (data nb) ++ ["]"]) =
      "[" +:+ String.concat ", " (pretty <$> values (l1 ++ [(b, nb)]))
          +:+ "]".
Proof.
  intros Hrepr Hend. split.
  - assert (b <> end_node) as Hb.
    { intros <-. apply Hend. rewrite fmap_app. apply elem_of_app.
      right. left. }
    pose proof (display_loop_to_tail
                  (LS (mm st) (heap st) (console st ++ ["["])) _ end_node
                  l1 b nb Hrepr Hend) as Hloop.
    cbn [mm heap console] in Hloop.
    unfold list_display_range, mbind, M_bind, printf, loop_fuel.
    cbn [mm heap console]. rewrite Hloop.
    destruct (Z.eqb_spec b end_node) as [E|_]; [contradiction|].
    unfold mret, M_ret. cbn [mm heap console].
    rewrite <- !app_assoc. reflexivity.
  - rewrite values_app. apply printed_brackets.
Qed.

Lemma list_display_range_to_tail_witness :
  match insert_all 16 [1; 2; 3] NULL empty_list_64 with
  | Returns (head, st) =>
      list_display_range head 1016 NULL st =
        Returns (tt, LS (mm st) (heap st)
                        (console st
                         ++ "[" :: display_chunks (values [(1016, mkNode 2 1032)]) 3
                         ++ ["]"]))
      /\ printed ("[" :: display_chunks (values [(1016, mkNode 2 1032)]) 3
                       ++ ["]"]) =
          "[" +:+ String.concat ", "
                    (pretty <$> values ([(1016, mkNode 2 1032)]
                                        ++ [(1032, mkNode 3 NULL)]))
              +:+ "]"
  | _ => False
  end.
Proof.
  run_inserts.
  apply (list_display_range_to_tail _ 1000 1016 NULL
           [(1016, mkNode 2 1032)] 1032 (mkNode 3 NULL)).
  - unfold list_repr. simpl.
    repeat split; try discriminate; vm_compute; reflexivity.
  - vm_compute. intros H.
    repeat (apply elem_of_cons in H as [H|H]; [discriminate|]).
    inversion H.
Defined.

(** X15.  [list_display] prints the payloads of a well-formed list that
    is not empty, head to tail, as "[v1, v2, ...]", and changes nothing
    else. *)
Theorem list_display_prints (st : list_state) (head : Z)
    (l1 : list (Z * Node)) (b : Z) (nb : Node) :
  list_repr (heap st) head (l1 ++ [(b, nb)]) ->
  list_display head st =
    Returns (tt, LS (mm st) (heap st)
                    (console st
                     ++ "[" :: display_chunks (values l1) (data nb) ++ ["]"]))
  /\ printed ("[" :: display_chunks (values l1) (data nb) ++ ["]"]) =
      "[" +:+ String.concat ", " (pretty <$> values (l1 ++ [(b, nb)]))
          +:+ "]".
Proof.
  intros Hrepr. split.
  - assert (NULL ∉ (l1 ++ [(b, nb)]).*1) as Hnull.
    { apply list_repr_lseg in Hrepr. exact (lseg_addr_nonnull _ _ _ _ Hrepr). }
    assert (b <> NULL) as Hb.
    { intros ->. apply Hnull. rewrite fmap_app. apply elem_of_app.
      right. left. }
    pose proof (display_loop_to_tail
                  (LS (mm st) (heap st) (console st ++ ["["])) head NULL
                  l1 b nb Hrepr Hnull) as Hloop.
    cbn [mm heap console] in Hloop.
    unfold list_display, list_display_range, mbind, M_bind, printf, loop_fuel.
    cbn [mm heap console Z.eqb NULL]. rewrite Hloop.
    destruct (Z.eqb_spec b NULL) as [E|_]; [contradiction|].
    unfold mret, M_ret. cbn [mm heap console].
    rewrite <- !app_assoc. reflexivity.
  - rewrite values_app. apply printed_brackets.
Qed.

Lemma list_display_prints_witness :
  match insert_all 16 [1; 2; 3] NULL empty_list_64 with
  | Returns (head, st) =>
      list_display head st =
        Returns (tt, LS (mm st) (heap st) ["["; "1"; ", "; "2"; ", "; "3"; "]"])
      /\ printed ["["; "1"; ", "; "2"; ", "; "3"; "]"] = "[1, 2, 3]"
  | _ => False
  end.
Proof.
  run_inserts.
  match goal with
  | |- list_display _ ?st = _ /\ _ =>
      assert (list_repr (heap st) 1000
                ([(1000, mkNode 1 1016); (1016, mkNode 2 1032)]
                 ++ [(1032, mkNode 3 NULL)])) as Hrepr
  end.
  { unfold list_repr. simpl.
    repeat split; try discriminate; vm_compute; reflexivity. }
  exact (list_display_prints _ 1000 _ 1032 _ Hrepr).
Defined.

(** X16.  On the empty list nothing can be displayed: [list_display],
    and [list_display_range] from the head to any end node, read through
    the null pointer.  With a null end node the loop is not entered and
    [end_node->data] is read; with any other end node the loop reads
    [start_node->data] with a null [start_node]. *)
Theorem list_display_empty_faults (st : list_state) (end_node : Z) :
  list_display NULL st = Fault /\
  list_display_range NULL NULL end_node st = Fault.
Proof.
  split; [reflexivity|].
  unfold list_display_range, mbind, M_bind, printf, loop_fuel.
  cbn [mm heap console Z.eqb NULL].
  rewrite display_loop_S.
  destruct (Z.eqb_spec NULL end_node) as [<-|Hne]; [|reflexivity].
  unfold mret, M_ret. rewrite Z.eqb_refl. reflexivity.
Qed.

(** X17.  When the end node is on the chain from the start node,
    [list_display_range] prints the payloads from the start node up to
    and including the end node, and changes nothing else. *)
Theorem list_display_range_to_end (st : list_state)
    (head start_node end_node : Z) (l1 : list (Z * Node)) (n : Node)
    (l2 : list (Z * Node)) :
  list_repr (heap st) (if start_node =? NULL then head else start_node)
            (l1 ++ (end_node, n) :: l2) ->
  list_display_range head start_node end_node st =
    Returns (tt, LS (mm st) (heap st)
                    (console st
                     ++ "[" :: display_chunks (values l1) (data n) ++ ["]"]))
  /\ printed ("[" :: display_chunks (values l1) (data n) ++ ["]"]) =
      "[" +:+ String.concat ", "
                (pretty <$> values (l1 ++ [(end_node, n)])) +:+ "]".
Proof.
  intros Hrepr. split.
  - pose proof (loop_fuel_split _ _ _ _ _ Hrepr) as Hfuel.
    pose proof (list_repr_NoDup _ _ _ Hrepr) as Hnd.
    rewrite fmap_app in Hnd. apply NoDup_app in Hnd as (_ & Hdis & _).
    assert (end_node ∉ l1.*1) as He1.
    { intros Hin. apply (Hdis _ Hin). simpl. left. }
    apply list_repr_lseg, lseg_app in Hrepr as (m & Hl1 & Hlast).
    simpl in Hlast. destruct Hlast as (-> & Hen & Hn & _).
    unfold list_display_range, mbind, M_bind, printf, loop_fuel.
    cbn [mm heap console]. rewrite Hfuel.
    rewrite (display_loop_prefix l1 _ end_node end_node) by assumption.
    rewrite display_loop_S, Z.eqb_refl. cbn [mret M_ret].
    rewrite Z.eqb_refl.
    unfold mbind, M_bind, load_node, printf_d, printf. cbn [mm heap console].
    destruct (Z.eqb_spec end_node NULL) as [E|_]; [contradiction|].
    rewrite Hn. cbn [mm heap console]. unfold display_chunks.
    rewrite <- !app_assoc. reflexivity.
  - rewrite values_app. apply printed_brackets.
Qed.

Lemma list_display_range_to_end_witness :
  match insert_all 16 [1; 2; 3] NULL empty_list_64 with
  | Returns (head, st) =>
      list_display_range head NULL 1016 st =
        Returns (tt, LS (mm st) (heap st) ["["; "1"; ", "; "2"; "]"])
      /\ printed ["["; "1"; ", "; "2"; "]"] = "[1, 2]"
  | _ => False
  end.
Proof.
  run_inserts.
  match goal with
  | |- list_display_range _ _ _ ?st = _ /\ _ =>
      assert (list_repr (heap st) (if NULL =? NULL then 1000 else NULL)
                ([(1000, mkNode 1 1016)]
                 ++ (1016, mkNode 2 1032) :: [(1032, mkNode 3 NULL)]))
        as Hrepr
  end.
  { unfold list_repr. simpl.
    repeat split; try discriminate; vm_compute; reflexivity. }
  exact (list_display_range_to_end _ 1000 NULL 1016 _ _ _ Hrepr).
Defined.

(** ** Deleting *)

Lemma delete_loop_S (fuel : nat) (head current prev_node d : Z) :
  delete_loop (S fuel) head current prev_node d =
    if current =? NULL then mret head
    else
      n ← load_node current;
      if data n =? d then
        _ ← (if prev_node =? NULL then mret tt
             else set_next prev_node (next n));
        let head' := if current =? head then next n else head in
        _ ← call_mem_free current;
        mret head'
      else delete_loop fuel head (next n) current d.
Proof. reflexivity. Qed.

Lemma snoc_cases {A : Type} (l : list A) :
  l = [] \/ exists l0 x, l = l0 ++ [x].
Proof.
  induction l as [|x l _] using rev_ind; [left; reflexivity|].
  right. exists l, x. reflexivity.
Qed.

Lemma lseg_head_in (h : gmap Z Node) (a z : Z) (l : list (Z * Node)) :
  lseg h a l z -> l <> [] -> a ∈ l.*1.
Proof.
  destruct l as [|[a1 n1] l]; [contradiction|].
  simpl. intros (-> & _) _. left.
Qed.

Lemma delete_loop_spec (d : Z) (rest : list (Z * Node)) :
  forall (done : list (Z * Node)) (head cur prev : Z) (st : list_state)
         (fuel : nat),
  lseg (heap st) head done cur ->
  list_repr (heap st) cur rest ->
  NoDup ((done ++ rest).*1) ->
  match last done with Some (p, _) => prev = p | None => prev = NULL end ->
  (length rest < fuel)%nat ->
  exists head' h' l',
    delete_loop fuel head cur prev d st =
      Returns (head', LS (mm_after_delete d rest (mm st)) h' (console st)) /\
    list_repr h' head' l' /\
    values l' = values (done ++ delete_first d rest) /\
    l'.*1 = (done ++ delete_first d rest).*1 /\
    (first_match d rest = None -> head' = head /\ h' = heap st).
Proof.
  induction rest as [|[c n] rest IH];
    intros done head cur prev st fuel Hdone Hrest Hnd Hprev Hfuel.
  - simpl in Hrest. subst cur.
    destruct fuel as [|fuel]; [simpl in Hfuel; lia|].
    rewrite delete_loop_S. simpl.
    exists head, (heap st), done. rewrite app_nil_r.
    split; [destruct st; reflexivity|].
    split; [apply list_repr_lseg; exact Hdone|]. auto.
  - simpl in Hrest. destruct Hrest as (-> & Hcn & Hn & Hrest).
    destruct fuel as [|fuel]; [simpl in Hfuel; lia|]. simpl in Hfuel.
    rewrite delete_loop_S.
    destruct (Z.eqb_spec c NULL) as [E|_]; [contradiction|].
    unfold mbind at 1. unfold M_bind at 1. unfold load_node at 1.
    destruct (Z.eqb_spec c NULL) as [E|_]; [contradiction|].
    rewrite Hn.
    unfold mm_after_delete, first_match. simpl List.find. simpl delete_first.
    destruct (Z.eqb_spec (data n) d) as [Hd|Hd].
    + (* the node is removed *)
      destruct (snoc_cases done) as [-> | (done0 & [p np] & ->)].
      * simpl in Hprev, Hdone. subst prev head.
        unfold mbind, M_bind, call_mem_free, mret, M_ret. simpl.
        rewrite Z.eqb_refl.
        exists (next n), (heap st), rest.
        repeat split; try reflexivity; try exact Hrest; discriminate.
      * rewrite last_snoc in Hprev. subst prev.
        apply lseg_app in Hdone as (m & Hdone0 & Hp).
        simpl in Hp. destruct Hp as (-> & Hpn & Hnp & Hnext).
        rewrite <- app_assoc in Hnd. simpl in Hnd.
        rewrite fmap_app in Hnd. simpl in Hnd.
        apply NoDup_app in Hnd as (_ & Hdis & Hnd2).
        apply NoDup_cons in Hnd2 as (Hp2 & Hnd3).
        apply NoDup_cons in Hnd3 as (Hc3 & _).
        assert (p ∉ done0.*1) as Hp0
          by (intros Hin; apply (Hdis _ Hin); left).
        assert (c ∉ done0.*1) as Hc0
          by (intros Hin; apply (Hdis _ Hin); right; left).
        assert (p <> c) as Hpc by (intros ->; apply Hp2; left).
        assert (p ∉ rest.*1) as Hpr by (intros Hin; apply Hp2; right; exact Hin).
        assert (c <> head) as Hch.
        { intros ->. destruct done0 as [|[a0 n0] done0].
          - simpl in Hdone0. congruence.
          - simpl in Hdone0. destruct Hdone0 as (-> & _).
            apply Hc0. left. }
        unfold set_next, call_mem_free.
        unfold mbind, M_bind, load_node, store_node, mret, M_ret.
        cbn [mm heap console].
        destruct (Z.eqb_spec p NULL) as [E|_]; [contradiction|].
        rewrite Hnp. cbn [mm heap console data next].
        destruct (Z.eqb_spec c head) as [E|_]; [contradiction|].
        exists head, (<[p := mkNode (data np) (next n)]> (heap st)),
          (done0 ++ (p, mkNode (data np) (next n)) :: rest).
        split; [reflexivity|]. split; [|split; [|split]].
        -- apply list_repr_lseg, lseg_app. exists p. split.
           ++ apply lseg_insert_ne; assumption.
           ++ simpl. repeat split; try assumption.
              ** apply lookup_insert_eq.
              ** apply lseg_insert_ne; [exact Hpr|].
                 apply list_repr_lseg. exact Hrest.
        -- rewrite <- app_assoc, !values_app. reflexivity.
        -- rewrite <- app_assoc, !fmap_app. reflexivity.
        -- discriminate.
    + (* the loop goes on *)
      destruct (IH (done ++ [(c, n)]) head (next n) c st fuel)
        as (head' & h' & l' & Hrun & Hrepr' & Hval & Haddr & Hnone).
      * apply lseg_app. exists c. split; [exact Hdone|].
        simpl. repeat split; assumption.
      * exact Hrest.
      * rewrite <- app_assoc. exact Hnd.
      * rewrite last_snoc. reflexivity.
      * lia.
      * exists head', h', l'.
        unfold mm_after_delete, first_match in Hrun.
        rewrite <- app_assoc in Hval, Haddr.
        repeat split; try assumption; apply Hnone; assumption.
Qed.

(** X18.  On a well-formed list [list_delete] returns; it unlinks the
    first node, head to tail, whose payload equals the value and passes
    its address to [mem_free]; the other nodes stay in their order at
    their addresses, and nothing is printed. *)
Theorem list_delete_removes_first (st : list_state) (head d : Z)
    (l : list (Z * Node)) :
  list_repr (heap st) head l ->
  exists head' h' l',
    list_delete head d st =
      Returns (head', LS (mm_after_delete d l (mm st)) h' (console st)) /\
    list_repr h' head' l' /\
    values l' = values (delete_first d l) /\
    l'.*1 = (delete_first d l).*1.
Proof.
  intros Hrepr.
  destruct (delete_loop_spec d l [] head head NULL st (S (size (heap st))))
    as (head' & h' & l' & Hrun & Hrepr' & Hval & Haddr & _).
  - reflexivity.
  - exact Hrepr.
  - exact (list_repr_NoDup _ _ _ Hrepr).
  - reflexivity.
  - pose proof (list_repr_length _ _ _ Hrepr). lia.
  - exists head', h', l'. split; [exact Hrun|]. auto.
Qed.

Lemma list_delete_removes_first_witness :
  match insert_all 16 [1; 2; 3] NULL empty_list_64 with
  | Returns (head, st) =>
      exists head' h' l',
        list_delete head 2 st =
          Returns (head',
                   LS (mm_after_delete 2
                         [(1000, mkNode 1 1016); (1016, mkNode 2 1032);
                          (1032, mkNode 3 NULL)] (mm st))
                      h' (console st)) /\
        list_repr h' head' l' /\
        values l' = [1; 3] /\
        l'.*1 = [1000; 1032]
  | _ => False
  end.
Proof.
  run_inserts.
  apply (list_delete_removes_first _ 1000 2
           [(1000, mkNode 1 1016); (1016, mkNode 2 1032);
            (1032, mkNode 3 NULL)]).
  unfold list_repr. repeat split; try discriminate; vm_compute; reflexivity.
Defined.

(** X19.  [list_delete] of a value that no node of a well-formed list
    holds changes nothing: the head, the nodes, the pool and the console
    are as before. *)
Theorem list_delete_absent (st : list_state) (head d : Z)
    (l : list (Z * Node)) :
  list_repr (heap st) head l ->
  first_match d l = None ->
  list_delete head d st = Returns (head, st).
Proof.
  intros Hrepr Hnone.
  destruct (delete_loop_spec d l [] head head NULL st (S (size (heap st))))
    as (head' & h' & l' & Hrun & _ & _ & _ & Hsame).
  - reflexivity.
  - exact Hrepr.
  - exact (list_repr_NoDup _ _ _ Hrepr).
  - reflexivity.
  - pose proof (list_repr_length _ _ _ Hrepr). lia.
  - destruct (Hsame Hnone) as [-> ->].
    unfold mm_after_delete in Hrun. rewrite Hnone in Hrun.
    unfold list_delete, loop_fuel, mbind, M_bind. rewrite Hrun.
    destruct st; reflexivity.
Qed.

Lemma list_delete_absent_witness :
  match insert_all 16 [1; 2; 3] NULL empty_list_64 with
  | Returns (head, st) => list_delete head 7 st = Returns (head, st)
  | _ => False
  end.
Proof.
  run_inserts.
  apply (list_delete_absent _ 1000 7
           [(1000, mkNode 1 1016); (1016, mkNode 2 1032);
            (1032, mkNode 3 NULL)]).
  - unfold list_repr. repeat split; try discriminate; vm_compute; reflexivity.
  - reflexivity.
Defined.

Lemma delete_first_addresses (d : Z) (l : list (Z * Node)) :
  NoDup (l.*1) ->
  forall a, a ∈ (delete_first d l).*1 ->
    a ∈ l.*1 /\
    match first_match d l with Some (x, _) => a <> x | None => True end.
Proof.
  unfold first_match.
  induction l as [|[c n] l IH]; intros Hnd a Ha; [inversion Ha|].
  simpl in Hnd. apply NoDup_cons in Hnd as [Hc Hnd].
  simpl in Ha |- *. destruct (data n =? d).
  - split; [right; exact Ha|]. intros ->. contradiction.
  - simpl in Ha. apply elem_of_cons in Ha as [->|Ha].
    + split; [left|].
      destruct (List.find (fun an => data an.2 =? d) l) as [[x nx]|] eqn:E;
        [|exact I].
      intros ->. apply Hc. apply List.find_some in E as [Hin _].
      apply list_elem_of_In in Hin.
      apply (list_elem_of_fmap_2 fst) in Hin. exact Hin.
    + destruct (IH Hnd a Ha) as [H1 H2]. split; [right; exact H1 | exact H2].
Qed.

(** X20.  [list_delete] keeps a well-formed list over the pool
    well-formed: the pool invariant holds afterwards and the remaining
    nodes still lie in blocks that are in use. *)
Theorem list_delete_keeps_list (total : Z) (st : list_state) (head d : Z)
    (l : list (Z * Node)) :
  list_inv total st head l ->
  exists head' st' l',
    list_delete head d st = Returns (head', st') /\
    list_inv total st' head' l' /\
    values l' = values (delete_first d l) /\
    console st' = console st.
Proof.
  intros (Hpool & Hrepr & Hlive).
  destruct (delete_loop_spec d l [] head head NULL st (S (size (heap st))))
    as (head' & h' & l' & Hrun & Hrepr' & Hval & Haddr & _);
    [reflexivity | exact Hrepr | exact (list_repr_NoDup _ _ _ Hrepr)
    | reflexivity | pose proof (list_repr_length _ _ _ Hrepr); lia |].
  exists head', (LS (mm_after_delete d l (mm st)) h' (console st)), l'.
  split; [exact Hrun|]. split; [|split; [exact Hval | reflexivity]].
  pose proof (list_repr_NoDup _ _ _ Hrepr) as Hnd.
  split; [|split; [exact Hrepr'|]].
  - unfold mm_after_delete. simpl.
    destruct (first_match d l) as [[a n]|]; [|exact Hpool].
    apply MemoryManagerFacts.mem_free_inv. exact Hpool.
  - intros a Ha. rewrite Haddr in Ha.
    destruct (delete_first_addresses d l Hnd a Ha) as [Hin Hne].
    destruct (Hlive a Hin) as (b & Hb & Hpb & Hfb & Hsb).
    exists b. simpl. unfold mm_after_delete.
    destruct (first_match d l) as [[x nx]|]; [|auto].
    repeat split; try assumption.
    apply used_block_kept_by_free; [assumption | assumption | congruence].
Qed.

Lemma list_delete_keeps_list_witness :
  match insert_all 16 [1] NULL empty_list_64 with
  | Returns (head, st) =>
      exists head' st' l',
        list_delete head 1 st = Returns (head', st') /\
        list_inv 64 st' head' l' /\
        values l' = values (delete_first 1 [(1000, mkNode 1 NULL)]) /\
        console st' = console st
  | _ => False
  end.
Proof.
  run_inserts.
  apply (list_delete_keeps_list 64 _ 1000 1 [(1000, mkNode 1 NULL)]).
  one_node_list_inv.
Defined.

(** ** Cleaning up *)

Lemma cleanup_loop_S (fuel : nat) (current : Z) :
  cleanup_loop (S fuel) current =
    if current =? NULL then mret tt
    else
      n ← load_node current;
      _ ← call_mem_free current;
      cleanup_loop fuel (next n).
Proof. reflexivity. Qed.

Lemma cleanup_loop_spec (l : list (Z * Node)) :
  forall (a : Z) (st : list_state) (fuel : nat),
  list_repr (heap st) a l -> (length l < fuel)%nat ->
  exists m', cleanup_loop fuel a st =
               Returns (tt, LS m' (heap st) (console st)).
Proof.
  induction l as [|[c n] l IH]; intros a st fuel Hrepr Hfuel.
  - simpl in Hrepr. subst a.
    destruct fuel as [|fuel]; [simpl in Hfuel; lia|].
    exists (mm st). rewrite cleanup_loop_S. simpl. destruct st; reflexivity.
  - simpl in Hrepr. destruct Hrepr as (-> & Hcn & Hn & Hrest).
    destruct fuel as [|fuel]; [simpl in Hfuel; lia|]. simpl in Hfuel.
    rewrite cleanup_loop_S.
    destruct (Z.eqb_spec c NULL) as [E|_]; [contradiction|].
    unfold mbind, M_bind, load_node, call_mem_free.
    destruct (Z.eqb_spec c NULL) as [E|_]; [contradiction|].
    rewrite Hn. simpl.
    apply (IH (next n)
             (LS (snd (MemoryManager.mem_free c (mm st))) (heap st)
                 (console st))); [exact Hrest | lia].
Qed.

(** X21.  On a well-formed list [list_cleanup] returns with a null head
    and the allocator released: no pool, no descriptor; nothing is
    printed. *)
Theorem list_cleanup_releases (st : list_state) (head : Z)
    (l : list (Z * Node)) :
  list_repr (heap st) head l ->
  list_cleanup head st =
    Returns (NULL, LS (MemoryManager.MM NULL [] []) (heap st) (console st)).
Proof.
  intros Hrepr. unfold list_cleanup, loop_fuel, mbind, M_bind.
  destruct (cleanup_loop_spec l head st (S (size (heap st))) Hrepr)
    as (m' & ->); [pose proof (list_repr_length _ _ _ Hrepr); lia|].
  reflexivity.
Qed.

Lemma list_cleanup_releases_witness :
  match insert_all 16 [1; 2; 3] NULL empty_list_64 with
  | Returns (head, st) =>
      list_cleanup head st =
        Returns (NULL,
                 LS (MemoryManager.MM NULL [] []) (heap st) (console st))
  | _ => False
  end.
Proof.
  run_inserts.
  apply (list_cleanup_releases _ 1000
           [(1000, mkNode 1 1016); (1016, mkNode 2 1032);
            (1032, mkNode 3 NULL)]).
  unfold list_repr. repeat split; try discriminate; vm_compute; reflexivity.
Defined.

(** ** Inserting after and before a node *)

Lemma bind_Returns {A B : Type} (m : M A) (f : A -> M B) (st st' : list_state)
    (a : A) :
  m st = Returns (a, st') -> (m ≫= f) st = f a st'.
Proof. intros H. unfold mbind, M_bind. rewrite H. reflexivity. Qed.

Lemma bind_Fault {A B : Type} (m : M A) (f : A -> M B) (st : list_state) :
  m st = Fault -> (m ≫= f) st = Fault.
Proof. intros H. unfold mbind, M_bind. rewrite H. reflexivity. Qed.

Lemma load_node_ok (a : Z) (n : Node) (st : list_state) :
  a <> NULL -> heap st !! a = Some n -> load_node a st = Returns (n, st).
Proof.
  intros Ha Hn. unfold load_node.
  destruct (Z.eqb_spec a NULL) as [E|_]; [contradiction|].
  rewrite Hn. reflexivity.
Qed.

Lemma store_node_ok (a : Z) (n : Node) (st : list_state) :
  a <> NULL ->
  store_node a n st =
    Returns (tt, LS (mm st) (<[a := n]> (heap st)) (console st)).
Proof.
  intros Ha. unfold store_node.
  destruct (Z.eqb_spec a NULL) as [E|_]; [contradiction|reflexivity].
Qed.

Lemma set_next_ok (a nx : Z) (n : Node) (st : list_state) :
  a <> NULL -> heap st !! a = Some n ->
  set_next a nx st =
    Returns (tt, LS (mm st) (<[a := mkNode (data n) nx]> (heap st))
                    (console st)).
Proof.
  intros Ha Hn. unfold set_next.
  rewrite (bind_Returns _ _ _ _ _ (load_node_ok a n st Ha Hn)).
  apply store_node_ok. exact Ha.
Qed.

(** X22.  [list_insert_after] with a null [prev_node] does not return:
    when the allocation fails it writes through the null pointer it got,
    and otherwise it reads [prev_node->next] through the null
    [prev_node]. *)
Theorem list_insert_after_null_faults (sizeof_Node indeterminate d : Z)
    (st : list_state) :
  list_insert_after sizeof_Node indeterminate NULL d st = Fault.
Proof.
  unfold list_insert_after, mbind, M_bind, call_mem_alloc.
  destruct (MemoryManager.mem_alloc sizeof_Node (mm st)) as [p m1].
  unfold store_data. destruct (p =? NULL); reflexivity.
Qed.

(** X23.  On a well-formed list over the pool, [list_insert_after] on a
    node of the list, with an allocation that succeeds, links one new
    node with the value right behind that node; the other nodes keep
    their order, and the list stays well-formed. *)
Theorem list_insert_after_splices (total sizeof_Node indeterminate : Z)
    (head prev_node d : Z) (st : list_state) (l1 : list (Z * Node))
    (np : Node) (l2 : list (Z * Node)) :
  0 < sizeof_Node ->
  list_inv total st head (l1 ++ (prev_node, np) :: l2) ->
  fst (MemoryManager.mem_alloc sizeof_Node (mm st)) <> NULL ->
  exists st' l',
    list_insert_after sizeof_Node indeterminate prev_node d st =
      Returns (tt, st') /\
    list_inv total st' head l' /\
    values l' = values l1 ++ data np :: d :: values l2 /\
    console st' = console st.
Proof.
  intros Hsz (Hpool & Hrepr & Hlive) Hok.
  pose proof (alloc_fresh_for_list _ _ _ _ Hpool Hsz Hlive Hok) as Hfresh.
  assert (0 <= sizeof_Node) as Hsz0 by lia.
  pose proof (MemoryManagerFacts.mem_alloc_inv total sizeof_Node (mm st)
                Hsz0 Hpool) as Hpool1.
  pose proof (alloc_block_in_chain _ _ _ Hpool Hsz0 Hok) as Hnew.
  assert (forall b, b ∈ MemoryManager.first_block (mm st) ->
                    MemoryManager.free b = 0 ->
                    b ∈ MemoryManager.first_block
                          (snd (MemoryManager.mem_alloc sizeof_Node (mm st))))
    as Hkeep by (intros; apply used_block_kept_by_alloc; assumption).
  unfold list_insert_after, call_mem_alloc.
  destruct (MemoryManager.mem_alloc sizeof_Node (mm st)) as [p m1] eqn:Ealloc.
  simpl in Hok, Hfresh, Hpool1, Hnew, Hkeep.
  pose proof (list_repr_NoDup _ _ _ Hrepr) as Hnd.
  rewrite fmap_app in Hnd, Hfresh. simpl in Hnd, Hfresh.
  apply NoDup_app in Hnd as (_ & Hdis & Hnd2).
  apply NoDup_cons in Hnd2 as (Hprev2 & _).
  apply not_elem_of_app in Hfresh as [Hp1 Hp'].
  apply not_elem_of_cons in Hp' as [Hpprev Hp2].
  assert (prev_node ∉ l1.*1) as Hprev1
    by (intros Hin; apply (Hdis _ Hin); left).
  apply list_repr_lseg, lseg_app in Hrepr as (m & Hl1 & Hmid).
  simpl in Hmid. destruct Hmid as (-> & Hpn & Hnp & Hl2).
  set (nx0 := match heap st !! p with
              | Some n => next n
              | None => indeterminate
              end).
  set (h1 := <[p := mkNode d nx0]> (heap st)).
  set (h2 := <[p := mkNode d (next np)]> h1).
  set (h3 := <[prev_node := mkNode (data np) p]> h2).
  exists (LS m1 h3 (console st)),
    (l1 ++ (prev_node, mkNode (data np) p) :: (p, mkNode d (next np)) :: l2).
  split; [|split; [|split]].
  - unfold mbind at 1. unfold M_bind at 1. rewrite Ealloc.
    unfold mbind at 1. unfold M_bind at 1. unfold store_data at 1.
    destruct (Z.eqb_spec p NULL) as [E|_]; [contradiction|].
    cbn [mm heap console]. fold nx0. fold h1.
    rewrite (bind_Returns _ _ _ _ _
               (load_node_ok prev_node np (LS m1 h1 (console st)) Hpn
                  ltac:(unfold h1; simpl;
                        rewrite lookup_insert_ne by congruence; exact Hnp))).
    rewrite (bind_Returns _ _ _ _ _
               (set_next_ok p (next np) (mkNode d nx0)
                  (LS m1 h1 (console st)) ltac:(assumption)
                  ltac:(unfold h1; simpl; apply lookup_insert_eq))).
    cbn [mm heap console data]. fold h2.
    rewrite (set_next_ok prev_node p np (LS m1 h2 (console st)) Hpn
               ltac:(unfold h2, h1; simpl;
                     rewrite !lookup_insert_ne by congruence; exact Hnp)).
    reflexivity.
  - split; [exact Hpool1|]. split.
    + simpl. apply list_repr_lseg, lseg_app. exists prev_node. split.
      * unfold h3, h2, h1. repeat apply lseg_insert_ne; assumption.
      * simpl. repeat split; try assumption.
        -- unfold h3. apply lookup_insert_eq.
        -- unfold h3, h2. rewrite lookup_insert_ne by congruence.
           apply lookup_insert_eq.
        -- unfold h3, h2, h1. repeat apply lseg_insert_ne; assumption.
    + intros a Ha. simpl. rewrite fmap_app in Ha. simpl in Ha.
      assert (a = p \/ a ∈ (l1 ++ (prev_node, np) :: l2).*1) as [->|Hold].
      { rewrite fmap_app. simpl.
        apply elem_of_app in Ha as [Ha|Ha].
        - right. apply elem_of_app. left. exact Ha.
        - apply elem_of_cons in Ha as [->|Ha].
          + right. apply elem_of_app. right. left.
          + apply elem_of_cons in Ha as [->|Ha]; [left; reflexivity|].
            right. apply elem_of_app. right. right. exact Ha. }
      * exists (MemoryManager.Block p sizeof_Node 0). repeat split; auto.
      * destruct (Hlive a Hold) as (b & Hb & Hpb & Hfb & Hsb).
        exists b. repeat split; auto.
  - rewrite !values_app. reflexivity.
  - reflexivity.
Qed.

Lemma list_insert_after_splices_witness :
  match insert_all 16 [1] NULL empty_list_64 with
  | Returns (head, st) =>
      exists st' l',
        list_insert_after 16 0 1000 9 st = Returns (tt, st') /\
        list_inv 64 st' head l' /\
        values l' = values [] ++ data (mkNode 1 NULL) :: 9 :: values [] /\
        console st' = console st
  | _ => False
  end.
Proof.
  run_inserts.
  apply (list_insert_after_splices 64 16 0 1000 1000 9 _ []
           (mkNode 1 NULL) []).
  - lia.
  - split; [|split].
    + constructor; simpl; unfold size_t_modulus; try lia.
    + unfold list_repr. repeat split; try discriminate; vm_compute; reflexivity.
    + intros a Ha. apply list_elem_of_singleton in Ha. subst a.
      exists (MemoryManager.Block 1000 16 0). simpl.
      split; [left | split; [reflexivity | split; [reflexivity | lia]]].
  - vm_compute. discriminate.
Defined.

Lemma find_pred_S (fuel : nat) (current next_node : Z) :
  find_pred (S fuel) current next_node =
    n ← load_node current;
    if next n =? next_node then mret current
    else find_pred fuel (next n) next_node.
Proof. reflexivity. Qed.

Lemma lseg_start_cases (h : gmap Z Node) (a z : Z) (l : list (Z * Node)) :
  lseg h a l z -> a = z \/ a ∈ l.*1.
Proof.
  destruct l as [|[a1 n1] l]; simpl.
  - intros ->. left. reflexivity.
  - intros (-> & _). right. left.
Qed.

Lemma find_pred_spec (st : list_state) (l0 : list (Z * Node)) (q : Z)
    (nq : Node) (nn : Z) :
  forall (a : Z) (fuel : nat),
  lseg (heap st) a l0 q -> q <> NULL -> heap st !! q = Some nq ->
  next nq = nn -> nn ∉ l0.*1 -> nn <> q -> (length l0 < fuel)%nat ->
  find_pred fuel a nn st = Returns (q, st).
Proof.
  induction l0 as [|[a1 n1] l0 IH]; intros a fuel H Hq Hnq Hnext Hnn Hnq' Hf.
  - simpl in H. subst a. destruct fuel as [|fuel]; [simpl in Hf; lia|].
    rewrite find_pred_S.
    rewrite (bind_Returns _ _ _ _ _ (load_node_ok q nq st Hq Hnq)).
    rewrite Hnext, Z.eqb_refl. reflexivity.
  - simpl in H. destruct H as (-> & Ha1 & Hn1 & Hrest).
    destruct fuel as [|fuel]; [simpl in Hf; lia|]. simpl in Hf.
    simpl in Hnn. apply not_elem_of_cons in Hnn as [Hnn1 Hnn2].
    rewrite find_pred_S.
    rewrite (bind_Returns _ _ _ _ _ (load_node_ok a1 n1 st Ha1 Hn1)).
    destruct (Z.eqb_spec (next n1) nn) as [E|_].
    + destruct (lseg_start_cases _ _ _ _ Hrest) as [E'|Hin];
        [congruence | rewrite E in Hin; contradiction].
    + apply IH; try assumption. lia.
Qed.

Lemma find_pred_faults (st : list_state) (l : list (Z * Node)) (nn : Z) :
  forall (a : Z) (fuel : nat),
  list_repr (heap st) a l -> nn <> NULL -> nn ∉ l.*1 ->
  (length l < fuel)%nat ->
  find_pred fuel a nn st = Fault.
Proof.
  induction l as [|[a1 n1] l IH]; intros a fuel H Hnn Hnin Hf.
  - simpl in H. subst a. destruct fuel as [|fuel]; [simpl in Hf; lia|].
    reflexivity.
  - simpl in H. destruct H as (-> & Ha1 & Hn1 & Hrest).
    destruct fuel as [|fuel]; [simpl in Hf; lia|]. simpl in Hf.
    simpl in Hnin. apply not_elem_of_cons in Hnin as [Hnn1 Hnn2].
    rewrite find_pred_S.
    rewrite (bind_Returns _ _ _ _ _ (load_node_ok a1 n1 st Ha1 Hn1)).
    destruct (Z.eqb_spec (next n1) nn) as [E|_].
    + apply list_repr_lseg in Hrest.
      destruct (lseg_start_cases _ _ _ _ Hrest) as [E'|Hin];
        [congruence | rewrite E in Hin; contradiction].
    + apply IH; try assumption. lia.
Qed.

Lemma lseg_end_det (h : gmap Z Node) (a z1 z2 : Z) (l : list (Z * Node)) :
  lseg h a l z1 -> lseg h a l z2 -> z1 = z2.
Proof.
  revert a. induction l as [|[a1 n1] l IH]; simpl; intros a H1 H2.
  - congruence.
  - destruct H1 as (_ & _ & _ & H1). destruct H2 as (_ & _ & _ & H2).
    exact (IH _ H1 H2).
Qed.

(** X24.  On a well-formed list over the pool, [list_insert_before] with
    an allocation that succeeds links one new node with the value in
    front of [next_node], where [next_node] is a node of the list or
    [NULL] (the position behind the last node); the new node becomes the
    head exactly when [next_node] is the head.  The other nodes keep
    their order and the list stays well-formed. *)
Theorem list_insert_before_links (total sizeof_Node head next_node d : Z)
    (st : list_state) (l1 l2 : list (Z * Node)) :
  0 < sizeof_Node ->
  list_inv total st head (l1 ++ l2) ->
  lseg (heap st) head l1 next_node ->
  fst (MemoryManager.mem_alloc sizeof_Node (mm st)) <> NULL ->
  exists head' st' l',
    list_insert_before sizeof_Node head next_node d st =
      Returns (head', st') /\
    list_inv total st' head' l' /\
    values l' = values l1 ++ d :: values l2 /\
    (head' = if head =? next_node
             then fst (MemoryManager.mem_alloc sizeof_Node (mm st))
             else head) /\
    console st' = console st.
Proof.
  intros Hsz (Hpool & Hrepr & Hlive) Hl1 Hok.
  pose proof (alloc_fresh_for_list _ _ _ _ Hpool Hsz Hlive Hok) as Hfresh.
  assert (0 <= sizeof_Node) as Hsz0 by lia.
  pose proof (MemoryManagerFacts.mem_alloc_inv total sizeof_Node (mm st)
                Hsz0 Hpool) as Hpool1.
  pose proof (alloc_block_in_chain _ _ _ Hpool Hsz0 Hok) as Hnew.
  assert (forall b, b ∈ MemoryManager.first_block (mm st) ->
                    MemoryManager.free b = 0 ->
                    b ∈ MemoryManager.first_block
                          (snd (MemoryManager.mem_alloc sizeof_Node (mm st))))
    as Hkeep by (intros; apply used_block_kept_by_alloc; assumption).
  unfold list_insert_before, call_mem_alloc.
  destruct (MemoryManager.mem_alloc sizeof_Node (mm st)) as [p m1] eqn:Ealloc.
  simpl in Hok, Hfresh, Hpool1, Hnew, Hkeep |- *.
  assert (forall l' : list (Z * Node),
            (forall a, a ∈ l'.*1 -> a ∈ (l1 ++ l2).*1 \/ a = p) ->
            forall h c, nodes_live (LS m1 h c) l') as Hlive1.
  { intros l' Hsub h c a Ha. simpl.
    destruct (Hsub a Ha) as [Hold | ->].
    - destruct (Hlive a Hold) as (b & Hb & Hpb & Hfb & Hsb).
      exists b. repeat split; auto.
    - exists (MemoryManager.Block p sizeof_Node 0). repeat split; auto. }
  pose proof (list_repr_NoDup _ _ _ Hrepr) as Hnd.
  rewrite fmap_app in Hnd, Hfresh.
  apply NoDup_app in Hnd as (_ & Hdis & _).
  apply not_elem_of_app in Hfresh as [Hp1 Hp2].
  pose proof Hrepr as Hrepr0.
  apply list_repr_lseg, lseg_app in Hrepr as (m & Hl1' & Hl2).
  pose proof (lseg_end_det _ _ _ _ _ Hl1' Hl1) as ->. clear Hl1'.
  assert (next_node ∉ l1.*1) as Hnn1.
  { intros Hin. destruct (lseg_start_cases _ _ _ _ Hl2) as [E|Hin2].
    - apply (lseg_addr_nonnull _ _ _ _ Hl1). rewrite <- E. exact Hin.
    - exact (Hdis _ Hin Hin2). }
  set (h1 := <[p := mkNode d next_node]> (heap st)).
  assert (list_repr h1 head (l1 ++ l2)) as Hrepr1.
  { apply list_repr_lseg, lseg_insert_ne;
      [rewrite fmap_app; apply not_elem_of_app; split; assumption|].
    apply list_repr_lseg. exact Hrepr0. }
  unfold mbind at 1. unfold M_bind at 1. rewrite Ealloc.
  unfold init_node.
  rewrite (bind_Returns _ _ _ _ _
             (store_node_ok p (mkNode d next_node)
                (LS m1 (heap st) (console st)) Hok)).
  cbn [mm heap console]. fold h1.
  destruct (snoc_cases l1) as [-> | (l0 & [q nq] & ->)].
  - (* [next_node] is the head *)
    simpl in Hl1. subst head. rewrite Z.eqb_refl.
    exists p, (LS m1 h1 (console st)), ((p, mkNode d next_node) :: l2).
    split; [reflexivity|]. split; [|repeat split].
    split; [exact Hpool1|]. split.
    + simpl. repeat split; [assumption | apply lookup_insert_eq |].
      apply list_repr_lseg. apply lseg_insert_ne; assumption.
    + apply Hlive1. intros a Ha. simpl in Ha |- *.
      apply elem_of_cons in Ha as [->|Ha]; [right; reflexivity | left; exact Ha].
  - (* [next_node] follows the node [q] *)
    apply lseg_app in Hl1 as (m & Hl0 & Hq).
    simpl in Hq. destruct Hq as (-> & Hqn & Hnq & Hnext).
    rewrite fmap_app in Hnn1, Hp1. simpl in Hnn1, Hp1.
    apply not_elem_of_app in Hnn1 as [Hnn0 Hnnq].
    apply not_elem_of_cons in Hnnq as [Hnnq _].
    apply not_elem_of_app in Hp1 as [Hp0 Hpq].
    apply not_elem_of_cons in Hpq as [Hpq _].
    assert (head <> next_node) as Hhead.
    { destruct (lseg_start_cases _ _ _ _ Hl0) as [->|Hin]; [congruence|].
      intros ->. contradiction. }
    destruct (Z.eqb_spec head next_node) as [E|_]; [contradiction|].
    assert (q ∉ l0.*1) as Hq0.
    { pose proof (list_repr_NoDup _ _ _ Hrepr0) as Hnd'.
      rewrite <- app_assoc, fmap_app in Hnd'. simpl in Hnd'.
      apply NoDup_app in Hnd' as (_ & Hdis' & _).
      intros Hin. apply (Hdis' _ Hin). left. }
    assert (q ∉ l2.*1) as Hq2.
    { intros Hin. apply (Hdis q); [|exact Hin].
      rewrite fmap_app. apply elem_of_app. right. left. }
    unfold loop_fuel.
    rewrite (bind_Returns _ _ (LS m1 h1 (console st))
               (LS m1 h1 (console st)) (S (size h1))) by reflexivity.
    rewrite (bind_Returns _ _ _ _ _
               (find_pred_spec (LS m1 h1 (console st)) l0 q nq next_node
                  head (S (size h1))
                  ltac:(simpl; apply lseg_insert_ne; assumption) Hqn
                  ltac:(unfold h1; simpl;
                        rewrite lookup_insert_ne by congruence; exact Hnq)
                  Hnext Hnn0 Hnnq
                  ltac:(apply list_repr_length in Hrepr1;
                        rewrite !length_app in Hrepr1; simpl in Hrepr1; lia))).
    rewrite (bind_Returns _ _ _ _ _
               (set_next_ok q p nq (LS m1 h1 (console st)) Hqn
                  ltac:(unfold h1; simpl;
                        rewrite lookup_insert_ne by congruence; exact Hnq))).
    exists head, (LS m1 (<[q := mkNode (data nq) p]> h1) (console st)),
      (l0 ++ (q, mkNode (data nq) p) :: (p, mkNode d next_node) :: l2).
    split; [reflexivity|]. split; [|repeat split].
    + split; [exact Hpool1|]. split.
      * simpl. apply list_repr_lseg, lseg_app. exists q. split.
        -- unfold h1. repeat apply lseg_insert_ne; assumption.
        -- simpl. repeat split; try assumption.
           ++ apply lookup_insert_eq.
           ++ rewrite lookup_insert_ne by congruence. apply lookup_insert_eq.
           ++ unfold h1. repeat apply lseg_insert_ne; assumption.
      * apply Hlive1. intros a Ha.
        rewrite !fmap_app in Ha |- *. simpl in Ha |- *.
        rewrite fmap_app. simpl.
        apply elem_of_app in Ha as [Ha|Ha].
        -- left. apply elem_of_app. left. apply elem_of_app. left. exact Ha.
        -- apply elem_of_cons in Ha as [->|Ha].
           ++ left. apply elem_of_app. left. apply elem_of_app. right. left.
           ++ apply elem_of_cons in Ha as [->|Ha]; [right; reflexivity|].
              left. apply elem_of_app. right. exact Ha.
    + rewrite !values_app. simpl. rewrite <- app_assoc. reflexivity.
Qed.

Lemma list_insert_before_links_witness :
  match insert_all 16 [1] NULL empty_list_64 with
  | Returns (head, st) =>
      exists head' st' l',
        list_insert_before 16 head 1000 9 st = Returns (head', st') /\
        list_inv 64 st' head' l' /\
        values l' = values [] ++ 9 :: values [(1000, mkNode 1 NULL)] /\
        (head' = if head =? 1000
                 then fst (MemoryManager.mem_alloc 16 (mm st))
                 else head) /\
        console st' = console st
  | _ => False
  end.
Proof.
  run_inserts.
  apply (list_insert_before_links 64 16 1000 1000 9 _ []
           [(1000, mkNode 1 NULL)]).
  - lia.
  - one_node_list_inv.
  - reflexivity.
  - vm_compute. discriminate.
Defined.

(** X25.  On a well-formed list over the pool, [list_insert_before] with
    a [next_node] that is neither [NULL] nor a node of the list does not
    return: the search for the predecessor runs off the end of the list
    and reads through the null pointer (on the empty list at once). *)
Theorem list_insert_before_unreachable_faults
    (total sizeof_Node head next_node d : Z) (st : list_state)
    (l : list (Z * Node)) :
  0 < sizeof_Node ->
  list_inv total st head l ->
  next_node <> NULL -> next_node ∉ l.*1 ->
  list_insert_before sizeof_Node head next_node d st = Fault.
Proof.
  intros Hsz (Hpool & Hrepr & Hlive) Hnn Hnin.
  pose proof (alloc_fresh_for_list _ _ _ _ Hpool Hsz Hlive) as Hfresh.
  unfold list_insert_before, call_mem_alloc.
  destruct (MemoryManager.mem_alloc sizeof_Node (mm st)) as [p m1] eqn:Ealloc.
  simpl in Hfresh.
  unfold mbind at 1. unfold M_bind at 1. rewrite Ealloc.
  unfold init_node.
  destruct (Z.eq_dec p NULL) as [->|Hp].
  - reflexivity.
  - specialize (Hfresh Hp).
    rewrite (bind_Returns _ _ _ _ _
               (store_node_ok p (mkNode d next_node)
                  (LS m1 (heap st) (console st)) Hp)).
    cbn [mm heap console].
    set (h1 := <[p := mkNode d next_node]> (heap st)).
    assert (list_repr h1 head l) as Hrepr1.
    { apply list_repr_lseg, lseg_insert_ne; [exact Hfresh|].
      apply list_repr_lseg. exact Hrepr. }
    assert (head <> next_node) as Hhead.
    { apply list_repr_lseg in Hrepr.
      destruct (lseg_start_cases _ _ _ _ Hrepr) as [->|Hin];
        [congruence | intros ->; contradiction]. }
    destruct (Z.eqb_spec head next_node) as [E|_]; [contradiction|].
    unfold loop_fuel.
    rewrite (bind_Returns _ _ (LS m1 h1 (console st))
               (LS m1 h1 (console st)) (S (size h1))) by reflexivity.
    apply bind_Fault.
    apply (find_pred_faults (LS m1 h1 (console st)) l);
      [exact Hrepr1 | exact Hnn | exact Hnin |].
    apply list_repr_length in Hrepr1. simpl. lia.
Qed.

Lemma list_insert_before_unreachable_faults_witness :
  match insert_all 16 [1] NULL empty_list_64 with
  | Returns (head, st) => list_insert_before 16 head 4444 9 st = Fault
  | _ => False
  end.
Proof.
  run_inserts.
  apply (list_insert_before_unreachable_faults 64 16 1000 4444 9 _
           [(1000, mkNode 1 NULL)]).
  - lia.
  - one_node_list_inv.
  - discriminate.
  - intros Hin. apply list_elem_of_singleton in Hin. discriminate.
Defined.

(** ** Operations together *)

Lemma first_match_values (d : Z) (l : list (Z * Node)) :
  d ∈ values l ->
  exists a n, first_match d l = Some (a, n) /\ data n = d /\ (a, n) ∈ l.
Proof.
  unfold first_match, values.
  induction l as [|[c n] l IH]; intros Hin; [inversion Hin|].
  simpl in Hin |- *. destruct (Z.eqb_spec (data n) d) as [E|E].
  - exists c, n. repeat split; [exact E | left].
  - apply elem_of_cons in Hin as [Hd|Hin]; [congruence|].
    destruct (IH Hin) as (a & m & Hf & Hd & Hm).
    exists a, m. repeat split; [exact Hf | exact Hd | right; exact Hm].
Qed.

(** X26.  A value that [list_insert] has just stored is found: after an
    insert whose allocation succeeded, [list_search] for the value
    returns a node of the list that holds it (the first one), prints
    nothing and changes nothing. *)
Theorem list_insert_then_search (total sizeof_Node head d : Z)
    (st : list_state) (l : list (Z * Node)) :
  0 < sizeof_Node ->
  list_inv total st head l ->
  fst (MemoryManager.mem_alloc sizeof_Node (mm st)) <> NULL ->
  exists head' st' a,
    list_insert sizeof_Node head d st = Returns (head', st') /\
    list_search head' d st' = Returns (a, st') /\
    a <> NULL /\
    (data <$> heap st' !! a) = Some d.
Proof.
  intros Hsz Hinv Hok.
  destruct (list_insert_spec total sizeof_Node head d st l Hsz Hinv Hok)
    as (head' & st' & l' & Hrun & (_ & Hrepr' & _) & Hval & _).
  assert (d ∈ values l') as Hin
    by (rewrite Hval; apply elem_of_app; right; left).
  destruct (first_match_values d l' Hin) as (a & n & Hf & Hd & Hm).
  exists head', st', a. split; [exact Hrun|].
  unfold list_search, loop_fuel, mbind, M_bind.
  rewrite (search_loop_first_match st' d l' head') by
    (try exact Hrepr'; pose proof (list_repr_length _ _ _ Hrepr'); lia).
  rewrite Hf. split; [reflexivity|].
  apply list_elem_of_split in Hm as (k1 & k2 & ->).
  apply list_repr_lseg, lseg_app in Hrepr' as (m & _ & Hmid).
  simpl in Hmid. destruct Hmid as (-> & Hnn & Hn & _).
  split; [exact Hnn|]. rewrite Hn. simpl. f_equal. exact Hd.
Qed.

Lemma list_insert_then_search_witness :
  match insert_all 16 [1] NULL empty_list_64 with
  | Returns (head, st) =>
      exists head' st' a,
        list_insert 16 head 7 st = Returns (head', st') /\
        list_search head' 7 st' = Returns (a, st') /\
        a <> NULL /\
        (data <$> heap st' !! a) = Some 7
  | _ => False
  end.
Proof.
  run_inserts.
  apply (list_insert_then_search 64 16 1000 7 _ [(1000, mkNode 1 NULL)]).
  - lia.
  - one_node_list_inv.
  - vm_compute. discriminate.
Defined.

End LinkedListFacts.
